(** * KSDrift: feature-wise Kolmogorov-Smirnov drift detector

    Shallow embedding of the drift detector documented in
    [doc/source/methods/ksdrift.ipynb] of alibi-detect.  The repository
    excerpt only documents the detector (constructor parameters, [predict]
    and its result); the implementation module [alibi_detect.cd.ks] is not
    part of it, so the definitions below marked "Modelled from the spec"
    follow the written specification of that module.

    Numbers are rationals ([Q]); data sets are lists of instances, each
    instance a list of feature values. *)

From Stdlib Require Import String.
From Stdlib Require Import List ZArith QArith Qabs Qminmax Lia Bool.
From Stdlib Require Import Sorting.Sorted Sorting.Permutation Sorting.Mergesort.
From Stdlib Require Import Orders Lqa.
Import ListNotations.

Open Scope Q_scope.

(** ** Data model *)

Inductive Alternative := TwoSided | Less | Greater.
Inductive DriftType := Feature | Batch.
Inductive Correction := Bonferroni | FDR.

(** [update_X_ref]: [{'last': N}] or [{'reservoir_sampling': N}]. *)
Inductive UpdatePolicy :=
| NoUpdate
| Last (N : nat)
| ReservoirSampling (N : nat).

Inductive DriftError := DimensionMismatch | InvalidCorrection | InsufficientSamples.

(** [is_drift]: one verdict for the batch, or one flag per feature. *)
Inductive Verdict :=
| Scalar (b : nat)
| PerFeature (bs : list nat).

Definition Row := list Q.
Definition Data := list Row.

(** Seeded generator: [rng seed bound] is a draw in [0, bound) and the
    next seed. *)
Definition Rng := Z -> nat -> nat * Z.

Record KSDrift := mkKSDrift {
  p_val : Q;
  X_ref : Data;
  preprocess_X_ref : bool;
  update_X_ref : UpdatePolicy;
  preprocess_fn : option (Data -> Data);
  correction : String.string;
  alternative : Alternative;
  n_features : nat;
  n : nat;            (** instances seen so far (reference + test) *)
  seed : Z;
  rng : Rng;
  data_type : option String.string
}.

Record Meta := mkMeta { name : String.string; meta_data_type : option String.string }.

Record PredData := mkPredData {
  is_drift : Verdict;
  p_vals : option (list Q);
  distance : list Q
}.

Record Prediction := mkPrediction { meta : Meta; data : PredData }.

Definition parse_correction (s : String.string) : option Correction :=
  if String.eqb s "bonferroni"%string then Some Bonferroni
  else if String.eqb s "fdr"%string then Some FDR
  else None.

(** ** Two-sample Kolmogorov-Smirnov test *)

Definition Q_of_nat (k : nat) : Q := inject_Z (Z.of_nat k).

Definition count_le (xs : list Q) (t : Q) : nat :=
  length (filter (fun x => Qle_bool x t) xs).

(** Empirical distribution function. *)
Definition ecdf (xs : list Q) (t : Q) : Q :=
  Q_of_nat (count_le xs t) / Q_of_nat (length xs).

(** Distance between the two distribution functions in the direction of
    the alternative ([a] reference, [b] test). *)
Definition ks_gap (alt : Alternative) (a b : Q) : Q :=
  match alt with
  | TwoSided => Qabs (a - b)
  | Greater => a - b
  | Less => b - a
  end.

(** Modelled from the spec: the statistic of [alibi_detect.cd.ks]
    (supremum distance between the empirical distribution functions, over
    all sample points; the supremum is at least 0, reached below every
    sample point). *)
Definition ks_statistic (alt : Alternative) (xs ys : list Q) : Q :=
  fold_left (fun acc t => Qmax acc (ks_gap alt (ecdf xs t) (ecdf ys t)))
    (xs ++ ys) 0.

(** Exact null distribution.  Under the null hypothesis every interleaving
    of the [nx] reference and [ny] test values is equally likely: a
    monotone lattice path from (0,0) to (nx,ny), where at point (i,j) the
    empirical distribution functions are i/nx and j/ny.  [row_next] and
    [lattice_rows] count, row by row, the paths whose points all satisfy
    [ok]. *)
Fixpoint row_next (ok : nat -> bool) (j : nat) (up : list Z) (left : Z) : list Z :=
  match up with
  | [] => []
  | u :: us =>
      let c := if ok j then (u + left)%Z else 0%Z in
      c :: row_next ok (S j) us c
  end.

Fixpoint lattice_rows (ok : nat -> nat -> bool) (i k : nat) (up : list Z) : list Z :=
  match k with
  | O => up
  | S k' => lattice_rows ok (S i) k' (row_next (ok i) 0 up 0%Z)
  end.

Definition count_paths (ok : nat -> nat -> bool) (nx ny : nat) : Z :=
  last (lattice_rows ok 0 (S nx) (1%Z :: repeat 0%Z ny)) 0%Z.

(** A path point stays strictly below the observed statistic [d]. *)
Definition lattice_ok (alt : Alternative) (nx ny : nat) (d : Q) (i j : nat) : bool :=
  negb (Qle_bool d (ks_gap alt (Q_of_nat i / Q_of_nat nx) (Q_of_nat j / Q_of_nat ny))).

(** Modelled from the spec: the exact p-value of [alibi_detect.cd.ks],
    the probability under the null hypothesis of a statistic at least the
    observed one. *)
Definition ks_pvalue (alt : Alternative) (xs ys : list Q) (d : Q) : Q :=
  let nx := length xs in
  let ny := length ys in
  1 - inject_Z (count_paths (lattice_ok alt nx ny d) nx ny)
      / inject_Z (count_paths (fun _ _ => true) nx ny).

Definition ks_2samp (alt : Alternative) (xs ys : list Q) : Q * Q :=
  let d := ks_statistic alt xs ys in (ks_pvalue alt xs ys d, d).

(** ** Multiple-testing corrections *)

Module QLe <: TotalLeBool.
Definition t := Q.
Definition leb := Qle_bool.
Lemma leb_total : forall a b, is_true (leb a b) \/ is_true (leb b a).
Proof.
  intros a b; unfold is_true, leb; rewrite !Qle_bool_iff.
  destruct (Qlt_le_dec a b) as [H|H]; [left; apply Qlt_le_weak|right]; exact H.
Qed.
End QLe.

(** Ascending sort of the p-values ([np.sort]). *)
Module QSort := Sort QLe.

Definition flag (b : bool) : nat := if b then 1%nat else 0%nat.

Definition min_pval (ps : list Q) : option Q :=
  match ps with
  | [] => None
  | p :: ps' => Some (fold_left Qmin ps' p)
  end.

(** Modelled from the spec: Bonferroni, drift when the minimum p-value is
    at most [threshold / n_features]. *)
Definition bonferroni_drift (thr : Q) (nf : nat) (ps : list Q) : bool :=
  match min_pval ps with
  | Some m => Qle_bool m (thr / Q_of_nat nf)
  | None => false
  end.

(** Largest [k] in [1..kmax] with [f k]. *)
Fixpoint largest_k (f : nat -> bool) (kmax : nat) : option nat :=
  match kmax with
  | O => None
  | S k => if f (S k) then Some (S k) else largest_k f k
  end.

(** The Benjamini-Hochberg line [(k/n) * threshold]. *)
Definition bh_line (thr : Q) (nn k : nat) : Q := Q_of_nat k / Q_of_nat nn * thr.

(** [p_k <= (k/n) * threshold] for the sorted p-values [s] (1-based [k]). *)
Definition bh_below (thr : Q) (s : list Q) (k : nat) : bool :=
  Qle_bool (nth (pred k) s 0) (bh_line thr (length s) k).

Definition fdr_k (thr : Q) (ps : list Q) : option nat :=
  let s := QSort.sort ps in largest_k (bh_below thr s) (length s).

(** Modelled from the spec: FDR (Benjamini-Hochberg), drift when some [k]
    has [p_k <= (k/n) * threshold]; the second component is the q-value
    threshold at the largest such [k]. *)
Definition fdr (thr : Q) (ps : list Q) : bool * option Q :=
  match fdr_k thr ps with
  | Some k => (true, Some (bh_line thr (length ps) k))
  | None => (false, None)
  end.

(** Hypotheses rejected by the FDR rule: the p-values at or below the
    q-value threshold. *)
Definition fdr_reject (thr : Q) (ps qs : list Q) : list bool :=
  match snd (fdr thr ps) with
  | Some q => map (fun p => Qle_bool p q) qs
  | None => map (fun _ => false) qs
  end.

(** Modelled from the spec: aggregation of the feature-wise p-values. *)
Definition aggregate (c : Correction) (thr : Q) (nf : nat) (dt : DriftType)
    (ps : list Q) : Verdict :=
  match dt with
  | Feature => PerFeature (map (fun p => flag (Qle_bool p thr)) ps)
  | Batch =>
      Scalar (flag (match c with
                    | Bonferroni => bonferroni_drift thr nf ps
                    | FDR => fst (fdr thr ps)
                    end))
  end.

(** ** Reference updates *)

(** [l[j] = y] for [j < length l]. *)
Definition replace_nth {A} (j : nat) (y : A) (l : list A) : list A :=
  firstn j l ++ y :: skipn (S j) l.

(** [l[-k:]] *)
Definition lastn {A} (k : nat) (l : list A) : list A :=
  skipn (length l - k) l.

(** One reservoir-sampling step with the draw [j]: fill the reservoir up
    to [N], then the new item replaces slot [j] when [j < N]. *)
Definition reservoir_step {A} (N : nat) (res : list A) (x : A) (j : nat) : list A :=
  if length res <? N then res ++ [x]
  else if j <? N then replace_nth j x res else res.

(** Modelled from the spec: reservoir sampling of a batch; [seen] counts
    the instances seen before, so the draw for an item is uniform in
    [0, count seen so far). *)
Fixpoint reservoir_sampling {A} (N : nat) (r : Rng) (res : list A) (seen : nat) (sd : Z)
    (xs : list A) : list A * Z :=
  match xs with
  | [] => (res, sd)
  | x :: xs' =>
      let '(j, sd') := if length res <? N then (0%nat, sd) else r sd (S seen) in
      reservoir_sampling N r (reservoir_step N res x j) (S seen) sd' xs'
  end.

(** ** Prediction *)

Definition preprocess (d : KSDrift) (x : Data) : Data :=
  match preprocess_fn d with Some f => f x | None => x end.

(** The reference is stored preprocessed when [preprocess_X_ref]. *)
Definition reference_features (d : KSDrift) : Data :=
  if preprocess_X_ref d then X_ref d else preprocess d (X_ref d).

(** The form in which a test batch joins the stored reference. *)
Definition stored_batch (d : KSDrift) (x : Data) : Data :=
  if preprocess_X_ref d then preprocess d x else x.

Definition column (f : nat) (x : Data) : list Q := map (fun r => nth f r 0) x.

(** Feature-wise p-values and statistics. *)
Definition score (d : KSDrift) (x : Data) : list Q * list Q :=
  let xr := reference_features d in
  let xt := preprocess d x in
  let res := map (fun f => ks_2samp (alternative d) (column f xr) (column f xt))
                 (seq 0 (n_features d)) in
  (map fst res, map snd res).

Definition dim_mismatch (d : KSDrift) (x : Data) : bool :=
  existsb (fun r => negb (Nat.eqb (length r) (n_features d))) (preprocess d x).

Definition empty_sample (d : KSDrift) (x : Data) : bool :=
  match X_ref d, x with
  | [], _ | _, [] => true
  | _, _ => false
  end.

Definition update_reference (d : KSDrift) (x : Data) : KSDrift :=
  let xb := stored_batch d x in
  let '(xr, sd) :=
    match update_X_ref d with
    | NoUpdate => (X_ref d, seed d)
    | Last N => (lastn N (X_ref d ++ xb), seed d)
    | ReservoirSampling N => reservoir_sampling N (rng d) (X_ref d) (n d) (seed d) xb
    end in
  mkKSDrift (p_val d) xr (preprocess_X_ref d) (update_X_ref d) (preprocess_fn d)
    (correction d) (alternative d) (n_features d) (n d + length x) sd (rng d)
    (data_type d).

Definition meta_of (d : KSDrift) : Meta := mkMeta "KSDrift"%string (data_type d).

(** Modelled from the spec: [KSDrift.predict]; the detector is threaded as
    state, the reference being updated only on success. *)
Definition predict (d : KSDrift) (x : Data) (drift_type : DriftType)
    (return_p_val : bool) : (DriftError + Prediction) * KSDrift :=
  if dim_mismatch d x then (inl DimensionMismatch, d)
  else match parse_correction (correction d) with
  | None => (inl InvalidCorrection, d)
  | Some c =>
      if empty_sample d x then (inl InsufficientSamples, d)
      else
        let '(ps, dist) := score d x in
        let pd := mkPredData (aggregate c (p_val d) (n_features d) drift_type ps)
                    (if return_p_val then Some ps else None) dist in
        (inr (mkPrediction (meta_of d) pd), update_reference d x)
  end.

(** A sequence of [predict] calls; the second component logs, for every
    successful call, the instances it passed to the reference update. *)
Fixpoint run (d : KSDrift) (calls : list (Data * DriftType * bool)) : KSDrift * list Data :=
  match calls with
  | [] => (d, [])
  | (x, dt, rp) :: cs =>
      let '(r, d1) := predict d x dt rp in
      let '(d2, log) := run d1 cs in
      (d2, match r with inr _ => stored_batch d x :: log | inl _ => log end)
  end.

(** ** Construction *)

Definition infer_n_features (pf : option (Data -> Data)) (x : Data) (n_infer : nat)
    : option nat :=
  match pf with
  | None => match x with r :: _ => Some (length r) | [] => None end
  | Some f =>
      match f (firstn n_infer x) with
      | r :: rs =>
          if forallb (fun r' => Nat.eqb (length r') (length r)) rs
          then Some (length r) else None
      | [] => None
      end
  end.

(** Modelled from the spec: [KSDrift(...)].  Optional arguments are
    [option]s: [preprocess_X_ref] defaults to [true], [alternative] to
    [TwoSided]; a missing [n_features] is inferred. *)
Definition init_KSDrift (p_val : Q) (X_ref : Data) (preprocess_X_ref : option bool)
    (update_X_ref : UpdatePolicy) (preprocess_fn : option (Data -> Data))
    (correction : String.string) (alternative : option Alternative)
    (n_features : option nat) (n_infer : nat) (data_type : option String.string)
    (seed : Z) (rng : Rng) : option KSDrift :=
  let pxr := match preprocess_X_ref with Some b => b | None => true end in
  let alt := match alternative with Some a => a | None => TwoSided end in
  let nf := match n_features with
            | Some k => Some k
            | None => infer_n_features preprocess_fn X_ref n_infer
            end in
  match nf with
  | None => None
  | Some k =>
      let xr := if pxr then match preprocess_fn with Some f => f X_ref | None => X_ref end
                else X_ref in
      Some (mkKSDrift p_val xr pxr update_X_ref preprocess_fn correction alt k
              (length X_ref) seed rng data_type)
  end.

(** ** Distribution of reservoir sampling

    Every draw sequence is equally likely: [reservoir_outcomes] lists the
    final reservoir of every draw sequence once.  While the reservoir is
    not full no draw is made; afterwards the draw for an item is uniform
    in [0, count seen so far). *)

Definition reservoir_draws {A} (N seen : nat) (res : list A) : list nat :=
  if length res <? N then [0%nat] else seq 0 (S seen).

Definition reservoir_round {A} (N seen : nat) (dist : list (list A)) (x : A)
    : list (list A) :=
  flat_map (fun res => map (reservoir_step N res x) (reservoir_draws N seen res)) dist.

Fixpoint reservoir_outcomes {A} (N seen : nat) (dist : list (list A)) (xs : list A)
    : list (list A) :=
  match xs with
  | [] => dist
  | x :: xs' => reservoir_outcomes N (S seen) (reservoir_round N seen dist x) xs'
  end.

Definition mem (x : nat) (l : list nat) : bool := existsb (Nat.eqb x) l.

(** Number of equally likely outcomes whose reservoir holds [x]. *)
Definition inclusion_count (x : nat) (outs : list (list nat)) : nat :=
  length (filter (mem x) outs).

(** Invariant of the outcome list once the reservoir is full, after the
    items [0 .. t-1]: every reservoir has [N] distinct items among them,
    and each item lies in the fraction [N/t] of the outcomes. *)
Definition reservoir_inv (N t : nat) (dist : list (list nat)) : Prop :=
  (forall res, In res dist ->
     length res = N /\ NoDup res /\ forall y, In y res -> (y < t)%nat) /\
  (forall x, (x < t)%nat -> (inclusion_count x dist * t = N * length dist)%nat) /\
  (0 < length dist)%nat.

(** The configuration a detector is built with, as one tuple. *)
Definition settings (d : KSDrift)
    : Q * bool * UpdatePolicy * option (Data -> Data) * String.string * Alternative
      * nat * option String.string :=
  (p_val d, preprocess_X_ref d, update_X_ref d, preprocess_fn d, correction d,
   alternative d, n_features d, data_type d).

(** ** Example inputs *)

(** A linear congruential generator, as an injected random source. *)
Definition lcg : Rng := fun s b =>
  (Z.to_nat (Z.modulo s (Z.of_nat b)),
   Z.modulo (1103515245 * s + 12345) 2147483648)%Z.

Definition ref_uniform : Data := map (fun k => [Q_of_nat k]) (seq 0 100).
Definition test_shifted : Data := map (fun k => [Q_of_nat k]) (seq 50 100).

Definition example_detector (corr : String.string) (nf : nat) (xr : Data)
    (upd : UpdatePolicy) : KSDrift :=
  mkKSDrift (5 # 100) xr true upd None corr TwoSided nf (length xr) 7%Z lcg None.

(** The prediction of a successful call. *)
Definition prediction_of (p : (DriftError + Prediction) * KSDrift) : Prediction :=
  match fst p with
  | inr r => r
  | inl _ => mkPrediction (mkMeta "" None) (mkPredData (Scalar 0) None [])
  end.

Definition small_ref : Data := [[0]; [1]; [2]].
Definition small_test : Data := [[5]; [6]].

Definition rows3 : Data := [[0; 1; 2]; [1; 2; 3]; [2; 3; 4]; [3; 4; 5]].
Definition rows3_shifted : Data := [[5; 1; 2]; [6; 2; 3]; [7; 3; 4]; [8; 4; 5]].

(** * Proofs *)

Open Scope nat_scope.

(** ** The shape of [predict] *)

Lemma predict_success : forall d x dt rp r d',
  predict d x dt rp = (inr r, d') ->
  dim_mismatch d x = false /\
  exists c, parse_correction (correction d) = Some c /\ empty_sample d x = false /\
    r = mkPrediction (meta_of d)
          (mkPredData (aggregate c (p_val d) (n_features d) dt (fst (score d x)))
             (if rp then Some (fst (score d x)) else None) (snd (score d x))) /\
    d' = update_reference d x.
Proof.
  intros d x dt rp r d' H; unfold predict in H.
  destruct (dim_mismatch d x); [discriminate|split; [reflexivity|]].
  destruct (parse_correction (correction d)) as [c|]; [|discriminate].
  destruct (empty_sample d x); [discriminate|].
  destruct (score d x) as [ps dist]; injection H as <- <-.
  exists c; repeat split.
Qed.

Lemma predict_pair : forall d x dt rp,
  fst (predict d x dt rp) = inr (prediction_of (predict d x dt rp)) ->
  predict d x dt rp = (inr (prediction_of (predict d x dt rp)), snd (predict d x dt rp)).
Proof.
  intros d x dt rp; destruct (predict d x dt rp) as [a b]; simpl; intros ->; reflexivity.
Qed.

Lemma predict_failure_state : forall d x dt rp e,
  fst (predict d x dt rp) = inl e -> snd (predict d x dt rp) = d.
Proof.
  intros d x dt rp e; unfold predict.
  destruct (dim_mismatch d x); [reflexivity|].
  destruct (parse_correction (correction d)); [|reflexivity].
  destruct (empty_sample d x); [reflexivity|].
  destruct (score d x); discriminate.
Qed.

Lemma score_length : forall d x, length (fst (score d x)) = n_features d.
Proof.
  intros d x; unfold score; simpl; rewrite !length_map, length_seq; reflexivity.
Qed.

(** ** Minimum of the p-values *)

Lemma Qmin_cases : forall a b, Qmin a b = a \/ Qmin a b = b.
Proof.
  intros a b; unfold Qmin, GenericMinMax.gmin; destruct (a ?= b)%Q; auto.
Qed.

Lemma Qmin_le : forall a b, (Qmin a b <= a /\ Qmin a b <= b)%Q.
Proof.
  intros a b; unfold Qmin, GenericMinMax.gmin.
  destruct (a ?= b)%Q eqn:E; split; try apply Qle_refl.
  - apply Qle_alt; rewrite E; discriminate.
  - apply Qle_alt; rewrite E; discriminate.
  - apply Qlt_le_weak, Qgt_alt; exact E.
Qed.

Lemma fold_Qmin_spec : forall ps p,
  In (fold_left Qmin ps p) (p :: ps) /\
  (forall q, In q (p :: ps) -> (fold_left Qmin ps p <= q)%Q).
Proof.
  induction ps as [|a ps IH]; intros p; simpl.
  - split; [left; reflexivity|intros q [<-|[]]; apply Qle_refl].
  - destruct (IH (Qmin p a)) as [Hin Hle]; split.
    + destruct Hin as [Hm|Hm].
      * destruct (Qmin_cases p a) as [E|E]; rewrite <- Hm, E; auto.
      * auto.
    + destruct (Qmin_le p a) as [H1 H2].
      intros q [<-|[<-|Hq]].
      * eapply Qle_trans; [apply Hle; left; reflexivity|exact H1].
      * eapply Qle_trans; [apply Hle; left; reflexivity|exact H2].
      * apply Hle; right; exact Hq.
Qed.

Lemma min_pval_spec : forall ps m,
  min_pval ps = Some m -> In m ps /\ (forall q, In q ps -> (m <= q)%Q).
Proof.
  intros [|p ps] m H; [discriminate|]; injection H as <-; apply fold_Qmin_spec.
Qed.

Lemma bonferroni_drift_iff : forall thr nf ps,
  bonferroni_drift thr nf ps = true <->
  exists m, In m ps /\ (forall p, In p ps -> (m <= p)%Q) /\ (m <= thr / Q_of_nat nf)%Q.
Proof.
  intros thr nf ps; unfold bonferroni_drift; split.
  - destruct (min_pval ps) as [m|] eqn:E; [|discriminate].
    intros H; apply Qle_bool_iff in H; destruct (min_pval_spec _ _ E) as [H1 H2].
    exists m; auto.
  - intros (m & Hin & Hmin & Hle).
    destruct ps as [|p ps]; [destruct Hin|]; simpl.
    apply Qle_bool_iff; eapply Qle_trans; [|exact Hle].
    apply (proj2 (fold_Qmin_spec ps p)); exact Hin.
Qed.

(** C1: with [drift_type = 'batch'] and Bonferroni, drift is declared iff
    the minimum p-value is at most [threshold / n_features]; [predict]
    reports exactly this aggregate of its feature-wise p-values. *)
Theorem bonferroni_batch_iff_min :
  (forall thr nf ps,
    aggregate Bonferroni thr nf Batch ps = Scalar 1 <->
    exists m, In m ps /\ (forall p, In p ps -> (m <= p)%Q) /\ (m <= thr / Q_of_nat nf)%Q) /\
  (forall d x rp r d',
    parse_correction (correction d) = Some Bonferroni ->
    predict d x Batch rp = (inr r, d') ->
    is_drift (data r) = aggregate Bonferroni (p_val d) (n_features d) Batch (fst (score d x)) /\
    length (fst (score d x)) = n_features d).
Proof.
  split.
  - intros thr nf ps; rewrite <- bonferroni_drift_iff; simpl.
    destruct (bonferroni_drift thr nf ps); simpl; split; congruence.
  - intros d x rp r d' Hc H.
    destruct (predict_success _ _ _ _ _ _ H) as (_ & c & Hc' & _ & -> & _).
    rewrite Hc in Hc'; injection Hc' as <-; split; [reflexivity|apply score_length].
Qed.

Lemma bonferroni_batch_iff_min_witness :
  let d := example_detector "bonferroni" 1 small_ref NoUpdate in
  let x := small_test in
  predict d x Batch true = (inr (prediction_of (predict d x Batch true)), snd (predict d x Batch true)) /\
  is_drift (data (prediction_of (predict d x Batch true)))
    = aggregate Bonferroni (p_val d) (n_features d) Batch (fst (score d x)) /\
  length (fst (score d x)) = n_features d.
Proof.
  intros d x.
  assert (Hp : predict d x Batch true
               = (inr (prediction_of (predict d x Batch true)), snd (predict d x Batch true)))
    by (apply predict_pair; vm_compute; reflexivity).
  split; [exact Hp|].
  apply (proj2 bonferroni_batch_iff_min d x true _ (snd (predict d x Batch true))); [vm_compute; reflexivity|exact Hp].
Defined.

(** ** A shifted uniform sample *)

(** C4: reference [0..99], test [50..149], one feature (inferred, no
    preprocessing), threshold 0.05, two-sided: [predict] in batch mode
    declares drift, whichever correction is configured. *)
Theorem shifted_uniform_drift : forall upd sd rg rp,
  Forall (fun corr =>
    exists d,
      init_KSDrift (5 # 100) ref_uniform None upd None corr None None 2 None sd rg = Some d /\
      n_features d = 1 /\ alternative d = TwoSided /\
      fst (predict d test_shifted Batch rp) = inr (prediction_of (predict d test_shifted Batch rp)) /\
      is_drift (data (prediction_of (predict d test_shifted Batch rp))) = Scalar 1)
    ["bonferroni"%string; "fdr"%string].
Proof.
  intros upd sd rg rp.
  repeat constructor; (eexists; split; [reflexivity|]);
    (split; [reflexivity|split; [reflexivity|]]); vm_compute; split; reflexivity.
Qed.

(** ** Feature-level mode *)

(** C5 (amended): with [drift_type = 'feature'] every flag compares the
    feature's own p-value with the threshold, one flag per feature and no
    scalar verdict, whatever the correction; the [n_features] p-values are
    returned when [return_p_val] is set. *)
Theorem feature_level_no_correction : forall d x rp r d',
  predict d x Feature rp = (inr r, d') ->
  let ps := fst (score d x) in
  length ps = n_features d /\
  is_drift (data r) = PerFeature (map (fun p => flag (Qle_bool p (p_val d))) ps) /\
  (forall b, is_drift (data r) <> Scalar b) /\
  (forall c, is_drift (data r) = aggregate c (p_val d) (n_features d) Feature ps) /\
  p_vals (data r) = (if rp then Some ps else None).
Proof.
  intros d x rp r d' H ps.
  destruct (predict_success _ _ _ _ _ _ H) as (_ & c & _ & _ & -> & _); simpl.
  split; [apply score_length|].
  split; [reflexivity|split; [discriminate|split; reflexivity]].
Qed.

Lemma feature_level_no_correction_witness :
  let d := example_detector "fdr" 3 rows3 NoUpdate in
  let x := rows3_shifted in
  let r := prediction_of (predict d x Feature true) in
  let ps := fst (score d x) in
  length ps = 3 /\
  is_drift (data r) = PerFeature (map (fun p => flag (Qle_bool p (p_val d))) ps) /\
  p_vals (data r) = Some ps.
Proof.
  intros d x r ps.
  assert (Hp : predict d x Feature true = (inr r, snd (predict d x Feature true)))
    by (apply predict_pair; vm_compute; reflexivity).
  destruct (feature_level_no_correction d x true r _ Hp) as (H1 & H2 & _ & _ & H5).
  split; [exact H1|split; [exact H2|exact H5]].
Defined.

(** C5 fails as stated: without [return_p_val] a feature-level prediction
    carries no p-value vector. *)
Lemma feature_level_without_p_values :
  let d := example_detector "bonferroni" 3 rows3 NoUpdate in
  fst (predict d rows3_shifted Feature false)
    = inr (prediction_of (predict d rows3_shifted Feature false)) /\
  p_vals (data (prediction_of (predict d rows3_shifted Feature false))) = None.
Proof. vm_compute; split; reflexivity. Qed.

(** ** Errors *)

Lemma empty_sample_iff : forall d x, empty_sample d x = true <-> X_ref d = [] \/ x = [].
Proof.
  intros d x; unfold empty_sample; destruct (X_ref d), x; intuition discriminate.
Qed.

(** C8 (amended): the errors are checked in the order DimensionMismatch,
    InvalidCorrection, InsufficientSamples; each is raised exactly when its
    condition holds and no earlier one does; on an error there is no
    prediction and the detector, its reference set included, is left
    unchanged. *)
Theorem predict_error_conditions : forall d x dt rp,
  (fst (predict d x dt rp) = inl DimensionMismatch <-> dim_mismatch d x = true) /\
  (fst (predict d x dt rp) = inl InvalidCorrection <->
     dim_mismatch d x = false /\ parse_correction (correction d) = None) /\
  (fst (predict d x dt rp) = inl InsufficientSamples <->
     dim_mismatch d x = false /\ parse_correction (correction d) <> None /\
     (X_ref d = [] \/ x = [])) /\
  (forall e, fst (predict d x dt rp) = inl e -> snd (predict d x dt rp) = d).
Proof.
  intros d x dt rp.
  assert (Hs : forall e, fst (predict d x dt rp) = inl e ->
    (e = DimensionMismatch /\ dim_mismatch d x = true) \/
    (e = InvalidCorrection /\ dim_mismatch d x = false /\
       parse_correction (correction d) = None) \/
    (e = InsufficientSamples /\ dim_mismatch d x = false /\
       parse_correction (correction d) <> None /\ empty_sample d x = true)).
  { intros e; unfold predict.
    destruct (dim_mismatch d x); simpl; [intros H; injection H as <-; left; auto|].
    destruct (parse_correction (correction d)) eqn:Ec; simpl.
    - destruct (empty_sample d x); simpl.
      + intros H; injection H as <-; right; right; repeat split; congruence.
      + destruct (score d x); discriminate.
    - intros H; injection H as <-; right; left; auto. }
  assert (Hd : dim_mismatch d x = true -> fst (predict d x dt rp) = inl DimensionMismatch)
    by (unfold predict; intros ->; reflexivity).
  assert (Hc : dim_mismatch d x = false -> parse_correction (correction d) = None ->
               fst (predict d x dt rp) = inl InvalidCorrection)
    by (unfold predict; intros -> ->; reflexivity).
  assert (He : dim_mismatch d x = false -> parse_correction (correction d) <> None ->
               empty_sample d x = true -> fst (predict d x dt rp) = inl InsufficientSamples).
  { unfold predict; intros -> Hp ->.
    destruct (parse_correction (correction d)); [reflexivity|congruence]. }
  split; [|split; [|split]].
  - split; [|exact Hd].
    intros H; destruct (Hs _ H) as [[_ ?]|[[? _]|[? _]]]; [assumption|discriminate|discriminate].
  - split; [|intros [H1 H2]; exact (Hc H1 H2)].
    intros H; destruct (Hs _ H) as [[? _]|[[_ ?]|[? _]]]; [discriminate|assumption|discriminate].
  - rewrite <- empty_sample_iff; split; [|intros (H1 & H2 & H3); exact (He H1 H2 H3)].
    intros H; destruct (Hs _ H) as [[? _]|[[? _]|[_ ?]]]; [discriminate|discriminate|assumption].
  - apply predict_failure_state.
Qed.

(** C8 fails as stated: the conditions are not exclusive, and a batch of
    the wrong dimension sent to a detector with an unknown correction
    raises DimensionMismatch, not InvalidCorrection. *)
Lemma invalid_correction_masked :
  ~ (forall d x dt rp,
       fst (predict d x dt rp) = inl InvalidCorrection <->
       parse_correction (correction d) = None).
Proof.
  intros H.
  destruct (H (example_detector "holm" 1 small_ref NoUpdate) rows3 Batch false) as [_ H'].
  specialize (H' eq_refl); vm_compute in H'; discriminate.
Qed.

(** ** Construction defaults *)

(** C10: a detector built without [preprocess_X_ref] and [alternative]
    has [preprocess_X_ref = true], its reference stored preprocessed, and
    the two-sided alternative. *)
Theorem init_defaults : forall pv xr upd pf corr nf ninf dt sd rg d,
  init_KSDrift pv xr None upd pf corr None nf ninf dt sd rg = Some d ->
  preprocess_X_ref d = true /\ alternative d = TwoSided /\
  X_ref d = preprocess d xr /\ reference_features d = preprocess d xr.
Proof.
  intros pv xr upd pf corr nf ninf dt sd rg d H; unfold init_KSDrift in H.
  destruct (match nf with Some k => Some k | None => _ end) as [k|]; [|discriminate].
  injection H as <-; unfold reference_features, preprocess; simpl.
  repeat split.
Qed.

Lemma init_defaults_witness :
  let d := example_detector "bonferroni" 1 ref_uniform NoUpdate in
  init_KSDrift (5 # 100) ref_uniform None NoUpdate None "bonferroni" None None 2 None 7 lcg
    = Some d /\
  preprocess_X_ref d = true /\ alternative d = TwoSided.
Proof.
  intros d.
  assert (Hi : init_KSDrift (5 # 100) ref_uniform None NoUpdate None "bonferroni" None None 2
                 None 7 lcg = Some d) by reflexivity.
  destruct (init_defaults _ _ _ _ _ _ _ _ _ _ _ Hi) as (H1 & H2 & _).
  split; [exact Hi|split; [exact H1|exact H2]].
Defined.

(** ** Benjamini-Hochberg *)

Lemma largest_k_some : forall f kmax k, largest_k f kmax = Some k ->
  1 <= k <= kmax /\ f k = true /\ (forall k', k < k' <= kmax -> f k' = false).
Proof.
  induction kmax as [|m IH]; intros k H; simpl in H; [discriminate|].
  destruct (f (S m)) eqn:E.
  - injection H as <-; split; [lia|split; [exact E|intros k' Hk'; lia]].
  - destruct (IH k H) as (H1 & H2 & H3); split; [lia|split; [exact H2|]].
    intros k' Hk'; destruct (Nat.eq_dec k' (S m)) as [->|Hne]; [exact E|apply H3; lia].
Qed.

Lemma largest_k_complete : forall f kmax k, 1 <= k <= kmax -> f k = true ->
  largest_k f kmax <> None.
Proof.
  induction kmax as [|m IH]; intros k Hk Hf; simpl; [lia|].
  destruct (f (S m)) eqn:E; [discriminate|].
  apply (IH k); [|exact Hf].
  destruct (Nat.eq_dec k (S m)) as [->|]; [congruence|lia].
Qed.

Lemma QLe_trans : Transitive (fun x y => is_true (QLe.leb x y)).
Proof.
  intros x y z; unfold is_true, QLe.leb; rewrite !Qle_bool_iff; apply Qle_trans.
Qed.

Lemma sorted_nth_le : forall s i j,
  StronglySorted (fun x y => is_true (QLe.leb x y)) s -> i <= j < length s ->
  (nth i s 0 <= nth j s 0)%Q.
Proof.
  induction s as [|a s IH]; intros i j Hs Hij; simpl in Hij; [lia|].
  apply StronglySorted_inv in Hs as [Hs Ha].
  destruct i as [|i], j as [|j]; simpl.
  - apply Qle_refl.
  - rewrite Forall_forall in Ha; apply Qle_bool_iff, Ha, nth_In; lia.
  - lia.
  - apply IH; [exact Hs|lia].
Qed.

Lemma sort_sorted : forall ps,
  StronglySorted (fun x y => is_true (QLe.leb x y)) (QSort.sort ps).
Proof. intros ps; apply QSort.StronglySorted_sort, QLe_trans. Qed.

Lemma sort_length : forall ps, length (QSort.sort ps) = length ps.
Proof. intros ps; symmetry; apply Permutation_length, QSort.Permuted_sort. Qed.

Lemma fdr_drift_iff : forall thr ps,
  fst (fdr thr ps) = true <->
  exists k, 1 <= k <= length ps /\
    (nth (k - 1) (QSort.sort ps) 0 <= Q_of_nat k / Q_of_nat (length ps) * thr)%Q /\
    forall k', k < k' <= length ps ->
      ~ (nth (k' - 1) (QSort.sort ps) 0 <= Q_of_nat k' / Q_of_nat (length ps) * thr)%Q.
Proof.
  intros thr ps; unfold fdr, fdr_k; rewrite sort_length.
  split.
  - destruct (largest_k _ _) as [k|] eqn:E; [|discriminate]; intros _.
    destruct (largest_k_some _ _ _ E) as (H1 & H2 & H3).
    exists k; split; [exact H1|split].
    + unfold bh_below, bh_line in H2; rewrite sort_length, Nat.sub_1_r in *.
      apply Qle_bool_iff; exact H2.
    + intros k' Hk' Hle; specialize (H3 k' Hk'); unfold bh_below, bh_line in H3.
      rewrite sort_length, <- Nat.sub_1_r in H3; apply Qle_bool_iff in Hle; congruence.
  - intros (k & H1 & H2 & _).
    assert (Hb : bh_below thr (QSort.sort ps) k = true).
    { unfold bh_below, bh_line; rewrite sort_length, <- Nat.sub_1_r; apply Qle_bool_iff; exact H2. }
    destruct (largest_k _ _) eqn:E; [reflexivity|].
    exfalso; exact (largest_k_complete _ _ _ H1 Hb E).
Qed.

(** C2: with [drift_type = 'batch'] and FDR, drift is declared iff, for
    the ascending sort [s] of the p-values, there is a largest [k] with
    [s_k <= (k/n) * threshold] (inclusive comparison); [predict] reports
    exactly this aggregate of its feature-wise p-values. *)
Theorem fdr_batch_iff_largest_k :
  (forall thr nf ps,
    let s := QSort.sort ps in
    Permutation ps s /\
    (forall i j, i <= j < length s -> (nth i s 0 <= nth j s 0)%Q) /\
    (aggregate FDR thr nf Batch ps = Scalar 1 <->
     exists k, 1 <= k <= length ps /\
       (nth (k - 1) s 0 <= Q_of_nat k / Q_of_nat (length ps) * thr)%Q /\
       forall k', k < k' <= length ps ->
         ~ (nth (k' - 1) s 0 <= Q_of_nat k' / Q_of_nat (length ps) * thr)%Q)) /\
  (forall d x rp r d',
    parse_correction (correction d) = Some FDR ->
    predict d x Batch rp = (inr r, d') ->
    is_drift (data r) = aggregate FDR (p_val d) (n_features d) Batch (fst (score d x)) /\
    length (fst (score d x)) = n_features d).
Proof.
  split.
  - intros thr nf ps s; subst s; split; [apply QSort.Permuted_sort|split].
    + intros i j Hij; apply sorted_nth_le; [apply sort_sorted|exact Hij].
    + rewrite <- fdr_drift_iff; simpl.
      destruct (fst (fdr thr ps)); simpl; split; congruence.
  - intros d x rp r d' Hc H.
    destruct (predict_success _ _ _ _ _ _ H) as (_ & c & Hc' & _ & -> & _).
    rewrite Hc in Hc'; injection Hc' as <-; split; [reflexivity|apply score_length].
Qed.

Lemma fdr_batch_iff_largest_k_witness :
  let d := example_detector "fdr" 1 small_ref NoUpdate in
  let x := small_test in
  predict d x Batch true = (inr (prediction_of (predict d x Batch true)), snd (predict d x Batch true)) /\
  is_drift (data (prediction_of (predict d x Batch true)))
    = aggregate FDR (p_val d) (n_features d) Batch (fst (score d x)) /\
  length (fst (score d x)) = n_features d.
Proof.
  intros d x.
  assert (Hp : predict d x Batch true
               = (inr (prediction_of (predict d x Batch true)), snd (predict d x Batch true)))
    by (apply predict_pair; vm_compute; reflexivity).
  split; [exact Hp|].
  apply (proj2 fdr_batch_iff_largest_k d x true _ (snd (predict d x Batch true)));
    [vm_compute; reflexivity|exact Hp].
Defined.

Lemma fdr_drift_of_k : forall thr ps k, 1 <= k <= length ps ->
  (nth (k - 1) (QSort.sort ps) 0 <= Q_of_nat k / Q_of_nat (length ps) * thr)%Q ->
  fst (fdr thr ps) = true.
Proof.
  intros thr ps k Hk H; unfold fdr, fdr_k.
  assert (Hb : bh_below thr (QSort.sort ps) k = true).
  { unfold bh_below, bh_line; rewrite sort_length, <- Nat.sub_1_r; apply Qle_bool_iff; exact H. }
  destruct (largest_k _ _) eqn:E; [reflexivity|].
  rewrite sort_length in E; exfalso; exact (largest_k_complete _ _ _ Hk Hb E).
Qed.

Lemma bh_line_mono : forall thr nn k k', k <= k' -> (0 <= thr)%Q ->
  (bh_line thr nn k <= bh_line thr nn k')%Q.
Proof.
  intros thr nn k k' Hk Ht; unfold bh_line, Qdiv.
  apply Qmult_le_compat_r; [|exact Ht].
  apply Qmult_le_compat_r.
  - unfold Q_of_nat; rewrite <- Zle_Qle; lia.
  - apply Qinv_le_0_compat; unfold Q_of_nat; change 0%Q with (inject_Z 0).
    rewrite <- Zle_Qle; lia.
Qed.

Lemma nth_repeat_app : forall k m i,
  nth i (repeat true k ++ repeat false m) false = (i <? k).
Proof.
  intros k m i; destruct (Nat.ltb_spec i k).
  - rewrite app_nth1 by (rewrite repeat_length; lia).
    apply (repeat_spec k true), nth_In; rewrite repeat_length; lia.
  - rewrite app_nth2 by (rewrite repeat_length; lia).
    destruct (Nat.lt_ge_cases (i - length (repeat true k)) m).
    + apply (repeat_spec m false), nth_In; rewrite !repeat_length in *; lia.
    + apply nth_overflow; rewrite !repeat_length in *; lia.
Qed.

Lemma nth_map_lt : forall {A B} (f : A -> B) l i da db, i < length l ->
  nth i (map f l) db = f (nth i l da).
Proof.
  intros A B f l i da db Hi; rewrite (nth_indep _ db (f da)) by (rewrite length_map; exact Hi).
  apply map_nth.
Qed.

Lemma fdr_reject_prefix_k : forall thr ps, (0 <= thr)%Q ->
  fdr_reject thr ps (QSort.sort ps)
  = repeat true (match fdr_k thr ps with Some k' => k' | None => 0 end) ++
    repeat false (length ps - match fdr_k thr ps with Some k' => k' | None => 0 end).
Proof.
  intros thr ps Ht.
  unfold fdr_reject, fdr.
  destruct (fdr_k thr ps) as [k|] eqn:E; simpl.
  + unfold fdr_k in E; destruct (largest_k_some _ _ _ E) as (H1 & H2 & H3).
    rewrite sort_length in H1.
    apply nth_ext with (d := false) (d' := false).
    { rewrite length_map, length_app, !repeat_length, sort_length; lia. }
    intros i Hi; rewrite length_map in Hi.
    rewrite (nth_map_lt _ _ _ 0%Q false Hi), nth_repeat_app.
    destruct (Nat.ltb_spec i k).
    * apply Qle_bool_iff; eapply Qle_trans.
      { apply (sorted_nth_le _ i (pred k)); [apply sort_sorted|rewrite sort_length; lia]. }
      unfold bh_below in H2; rewrite sort_length in H2; apply Qle_bool_iff; exact H2.
    * destruct (Qle_bool (nth i (QSort.sort ps) 0%Q) (bh_line thr (length ps) k)) eqn:Eq;
        [exfalso|reflexivity].
      assert (Hi' : k < S i <= length (QSort.sort ps)) by lia.
      specialize (H3 _ Hi'); unfold bh_below in H3; simpl pred in H3.
      rewrite sort_length in H3.
      apply Qle_bool_iff in Eq.
      assert (Hm : (bh_line thr (length ps) k <= bh_line thr (length ps) (S i))%Q)
        by (apply bh_line_mono; [lia|exact Ht]).
      assert (Hc : Qle_bool (nth i (QSort.sort ps) 0%Q) (bh_line thr (length ps) (S i)) = true)
        by (apply Qle_bool_iff; eapply Qle_trans; [exact Eq|exact Hm]).
      congruence.
  + rewrite map_const, sort_length, Nat.sub_0_r; reflexivity.
Qed.

Lemma sorted_threshold_prefix : forall q s,
  StronglySorted (fun x y => is_true (QLe.leb x y)) s ->
  exists k, map (fun p => Qle_bool p q) s = repeat true k ++ repeat false (length s - k).
Proof.
  intros q s; induction s as [|a s IH]; intros Hs; [exists 0; reflexivity|].
  apply StronglySorted_inv in Hs as [Hs Ha].
  destruct (Qle_bool a q) eqn:E.
  - destruct (IH Hs) as [k Hk]; exists (S k); simpl; rewrite E, Hk; reflexivity.
  - exists 0; simpl; rewrite E, <- map_const; f_equal.
    apply map_ext_in; intros p Hp.
    rewrite Forall_forall in Ha; specialize (Ha p Hp).
    destruct (Qle_bool p q) eqn:Ep; [|reflexivity].
    apply Qle_bool_iff in Ep; unfold is_true, QLe.leb in Ha; apply Qle_bool_iff in Ha.
    assert (Hc : Qle_bool a q = true) by (apply Qle_bool_iff; eapply Qle_trans; eassumption).
    congruence.
Qed.

Lemma bonferroni_then_fdr : forall thr ps,
  aggregate Bonferroni thr (length ps) Batch ps = Scalar 1 ->
  aggregate FDR thr (length ps) Batch ps = Scalar 1.
Proof.
  intros thr ps; simpl; intros H.
  assert (Hb : bonferroni_drift thr (length ps) ps = true)
    by (destruct (bonferroni_drift thr (length ps) ps); [reflexivity|discriminate]).
  apply bonferroni_drift_iff in Hb as (m & Hin & _ & Hm).
  assert (Hs : In m (QSort.sort ps))
    by (eapply Permutation_in; [apply QSort.Permuted_sort|exact Hin]).
  destruct (In_nth _ _ 0%Q Hs) as (j & Hj & Hjm).
  assert (Hlen : 1 <= length ps) by (destruct ps; [destruct Hin|simpl; lia]).
  rewrite (fdr_drift_of_k thr ps 1); [reflexivity|lia|].
  eapply Qle_trans; [apply (sorted_nth_le _ 0 j); [apply sort_sorted|lia]|].
  rewrite Hjm; eapply Qle_trans; [exact Hm|].
  unfold Q_of_nat, Qdiv; simpl; apply Qle_lteq; right; ring.
Qed.

(** C3: Bonferroni drift implies FDR drift on the same p-values, and the
    FDR rule (reject the p-values at or below the q-value threshold)
    selects a prefix of the ascending-sorted p-values; for a non-negative
    threshold the prefix is the first [k] of them, [k] the largest index
    of the Benjamini-Hochberg rule. *)
Theorem bonferroni_implies_fdr_prefix : forall thr ps,
  (aggregate Bonferroni thr (length ps) Batch ps = Scalar 1 ->
   aggregate FDR thr (length ps) Batch ps = Scalar 1) /\
  exists k,
    fdr_reject thr ps (QSort.sort ps) = repeat true k ++ repeat false (length ps - k) /\
    ((0 <= thr)%Q -> k = match fdr_k thr ps with Some k' => k' | None => 0 end).
Proof.
  intros thr ps; split; [apply bonferroni_then_fdr|].
  destruct (Qlt_le_dec thr 0) as [Hn|Ht].
  - unfold fdr_reject.
    destruct (snd (fdr thr ps)) as [q|].
    + destruct (sorted_threshold_prefix q (QSort.sort ps) (sort_sorted ps)) as [k Hk].
      exists k; rewrite sort_length in Hk; split; [exact Hk|].
      intros Ht; exfalso; apply (Qlt_not_le _ _ Hn Ht).
    + exists 0; rewrite map_const, sort_length, Nat.sub_0_r; split; [reflexivity|].
      intros Ht; exfalso; apply (Qlt_not_le _ _ Hn Ht).
  - eexists; split; [apply fdr_reject_prefix_k; exact Ht|intros _; reflexivity].
Qed.

Lemma bonferroni_implies_fdr_prefix_witness :
  fdr_reject (5 # 100) [1 # 100; 4 # 100; 45 # 1000] (QSort.sort [1 # 100; 4 # 100; 45 # 1000])
    = repeat true 3 ++ repeat false 0.
Proof.
  destruct (bonferroni_implies_fdr_prefix (5 # 100) [1 # 100; 4 # 100; 45 # 1000])
    as [_ (k & Hr & Hk)].
  assert (Ht : (0 <= 5 # 100)%Q) by (apply Qle_bool_iff; reflexivity).
  specialize (Hk Ht); vm_compute in Hk; subst k; exact Hr.
Defined.

(** ** Bounds of the exact p-value *)

Lemma row_next_length : forall ok up j l, length (row_next ok j up l) = length up.
Proof. intros ok; induction up; intros j l; simpl; [reflexivity|rewrite IHup; reflexivity]. Qed.

Lemma row_next_le : forall ok up1 up2 j l1 l2,
  Forall2 (fun a b => (0 <= a <= b)%Z) up1 up2 -> (0 <= l1 <= l2)%Z ->
  Forall2 (fun a b => (0 <= a <= b)%Z) (row_next ok j up1 l1)
    (row_next (fun _ => true) j up2 l2).
Proof.
  intros ok up1 up2 j l1 l2 H; revert j l1 l2.
  induction H as [|a b up1 up2 Hab H IH]; intros j l1 l2 Hl; simpl; constructor.
  - destruct (ok j); lia.
  - apply IH; destruct (ok j); lia.
Qed.

Lemma lattice_rows_le : forall ok k i up1 up2,
  Forall2 (fun a b => (0 <= a <= b)%Z) up1 up2 ->
  Forall2 (fun a b => (0 <= a <= b)%Z) (lattice_rows ok i k up1)
    (lattice_rows (fun _ _ => true) i k up2).
Proof.
  intros ok k; induction k as [|k IH]; intros i up1 up2 H; simpl; [exact H|].
  apply IH, row_next_le; [exact H|lia].
Qed.

Lemma last_le : forall l1 l2, Forall2 (fun a b => (0 <= a <= b)%Z) l1 l2 ->
  (0 <= last l1 0 <= last l2 0)%Z.
Proof.
  intros l1 l2 H; induction H as [|a b l1 l2 Hab H IH]; simpl; [lia|].
  destruct l1, l2; [exact Hab|inversion H|inversion H|exact IH].
Qed.

Lemma row_next_pos : forall up j l,
  Forall (fun a => 0 <= a)%Z up -> (1 <= l)%Z ->
  Forall (fun a => 1 <= a)%Z (row_next (fun _ => true) j up l).
Proof.
  induction up as [|u up IH]; intros j l H Hl; simpl; constructor;
    inversion H; subst; [lia|apply IH; [assumption|lia]].
Qed.

Lemma row_next_first : forall u us, (1 <= u)%Z -> Forall (fun a => 0 <= a)%Z us ->
  Forall (fun a => 1 <= a)%Z (row_next (fun _ => true) 0 (u :: us) 0).
Proof.
  intros u us Hu Hus; simpl; constructor; [lia|apply row_next_pos; [exact Hus|lia]].
Qed.

Lemma lattice_rows_pos : forall k i up, up <> [] -> Forall (fun a => 1 <= a)%Z up ->
  lattice_rows (fun _ _ => true) i k up <> [] /\
  Forall (fun a => 1 <= a)%Z (lattice_rows (fun _ _ => true) i k up).
Proof.
  induction k as [|k IH]; intros i up Hne H; simpl; [split; assumption|].
  destruct up as [|u us]; [congruence|].
  apply IH.
  - simpl; discriminate.
  - inversion H; subst; apply row_next_first; [assumption|].
    eapply Forall_impl; [|eassumption]; simpl; intros; lia.
Qed.

Lemma last_ge1 : forall l, l <> [] -> Forall (fun a => 1 <= a)%Z l -> (1 <= last l 0)%Z.
Proof.
  induction l as [|a l IH]; intros Hne H; [congruence|].
  inversion H; subst; simpl; destruct l; [assumption|apply IH; [discriminate|assumption]].
Qed.

Lemma count_paths_bounds : forall ok nx ny,
  (0 <= count_paths ok nx ny <= count_paths (fun _ _ => true) nx ny)%Z /\
  (1 <= count_paths (fun _ _ => true) nx ny)%Z.
Proof.
  intros ok nx ny; unfold count_paths; split.
  - apply last_le, lattice_rows_le.
    constructor; [lia|]; induction ny as [|ny IH]; simpl; constructor; [lia|exact IH].
  - cbn [lattice_rows].
    assert (Hne : row_next (fun _ => true) 0 (1%Z :: repeat 0%Z ny) 0 <> [])
      by (rewrite <- length_zero_iff_nil, row_next_length; simpl; discriminate).
    assert (Hpos : Forall (fun a => 1 <= a)%Z (row_next (fun _ => true) 0 (1%Z :: repeat 0%Z ny) 0)).
    { apply row_next_first; [lia|].
      apply Forall_forall; intros a Ha; apply repeat_spec in Ha; lia. }
    destruct (lattice_rows_pos nx 1 _ Hne Hpos) as [H1 H2].
    apply last_ge1; assumption.
Qed.

Lemma ks_pvalue_bounds : forall alt xs ys d, (0 <= ks_pvalue alt xs ys d <= 1)%Q.
Proof.
  intros alt xs ys d; unfold ks_pvalue.
  destruct (count_paths_bounds (lattice_ok alt (length xs) (length ys) d)
              (length xs) (length ys)) as [[H0 H1] H2].
  set (a := count_paths _ (length xs) (length ys)) in *.
  set (b := count_paths (fun _ _ => true) (length xs) (length ys)) in *.
  assert (Hq : (0 <= inject_Z a / inject_Z b <= 1)%Q).
  { assert (Hb : (0 < inject_Z b)%Q) by (change 0%Q with (inject_Z 0); rewrite <- Zlt_Qlt; lia).
    split.
    - unfold Qdiv; apply Qmult_le_0_compat.
      + change 0%Q with (inject_Z 0); rewrite <- Zle_Qle; lia.
      + apply Qinv_le_0_compat, Qlt_le_weak, Hb.
    - apply Qle_shift_div_r; [exact Hb|].
      rewrite Qmult_1_l, <- Zle_Qle; lia. }
  set (q := (inject_Z a / inject_Z b)%Q) in *; lra.
Qed.

Lemma score_pvalues_bounded : forall d x,
  Forall (fun p => (0 <= p <= 1)%Q) (fst (score d x)).
Proof.
  intros d x; unfold score; simpl; rewrite map_map.
  apply Forall_forall; intros p Hp; apply in_map_iff in Hp as (f & <- & _).
  apply ks_pvalue_bounds.
Qed.

(** C9: every p-value computed by a successful [predict] (all of them
    are, when [return_p_val] is set) lies in [0, 1]. *)
Theorem pvalues_in_unit_interval : forall d x dt rp r d',
  predict d x dt rp = (inr r, d') ->
  Forall (fun p => (0 <= p <= 1)%Q) (fst (score d x)) /\
  (forall ps, p_vals (data r) = Some ps -> Forall (fun p => (0 <= p <= 1)%Q) ps).
Proof.
  intros d x dt rp r d' H.
  destruct (predict_success _ _ _ _ _ _ H) as (_ & c & _ & _ & -> & _); simpl.
  split; [apply score_pvalues_bounded|].
  intros ps Hps; destruct rp; [injection Hps as <-; apply score_pvalues_bounded|discriminate].
Qed.

Lemma pvalues_in_unit_interval_witness :
  let d := example_detector "fdr" 3 rows3 NoUpdate in
  let x := rows3_shifted in
  predict d x Batch true = (inr (prediction_of (predict d x Batch true)), snd (predict d x Batch true)) /\
  Forall (fun p => (0 <= p <= 1)%Q) (fst (score d x)).
Proof.
  intros d x.
  assert (Hp : predict d x Batch true
               = (inr (prediction_of (predict d x Batch true)), snd (predict d x Batch true)))
    by (apply predict_pair; vm_compute; reflexivity).
  split; [exact Hp|].
  exact (proj1 (pvalues_in_unit_interval d x Batch true _ _ Hp)).
Defined.

(** ** Fixed-window reference *)

Lemma lastn_lastn_app : forall {A} N (l m : list A),
  lastn N (lastn N l ++ m) = lastn N (l ++ m).
Proof.
  intros A N l m; unfold lastn.
  rewrite !length_app, length_skipn, !skipn_app, skipn_skipn, length_skipn.
  f_equal; f_equal; lia.
Qed.

Lemma length_lastn : forall {A} N (l : list A), length (lastn N l) = Nat.min N (length l).
Proof. intros A N l; unfold lastn; rewrite length_skipn; lia. Qed.

Lemma lastn_short : forall {A} N (l : list A), length l <= N -> lastn N l = l.
Proof. intros A N l H; unfold lastn; replace (length l - N) with 0 by lia; reflexivity. Qed.

Lemma update_reference_last : forall d x N, update_X_ref d = Last N ->
  update_X_ref (update_reference d x) = Last N /\
  X_ref (update_reference d x) = lastn N (X_ref d ++ stored_batch d x).
Proof. intros d x N H; unfold update_reference; rewrite H; split; reflexivity. Qed.

Lemma run_fixed_window : forall N calls d0 d log,
  update_X_ref d0 = Last N -> run d0 calls = (d, log) ->
  update_X_ref d = Last N /\
  X_ref d = match log with [] => X_ref d0 | _ => lastn N (X_ref d0 ++ concat log) end.
Proof.
  intros N calls; induction calls as [|[[x dt] rp] cs IH]; intros d0 d log Hu Hr.
  - injection Hr as <- <-; split; [exact Hu|reflexivity].
  - cbn [run] in Hr.
    destruct (predict d0 x dt rp) as [res d1] eqn:Hp.
    destruct (run d1 cs) as [d2 log'] eqn:Hr'.
    injection Hr as <- <-.
    destruct res as [e|r].
    + assert (Hd : d1 = d0).
      { pose proof (predict_failure_state d0 x dt rp e) as Hf.
        rewrite Hp in Hf; exact (Hf eq_refl). }
      subst d1; exact (IH _ _ _ Hu Hr').
    + destruct (predict_success _ _ _ _ _ _ Hp) as (_ & _ & _ & _ & _ & ->).
      destruct (update_reference_last d0 x N Hu) as [Hu1 Hx1].
      destruct (IH _ _ _ Hu1 Hr') as [Hu2 Hx2].
      split; [exact Hu2|rewrite Hx2].
      destruct log' as [|b bs]; simpl.
      * rewrite Hx1, app_nil_r; reflexivity.
      * rewrite Hx1, lastn_lastn_app, !app_assoc; reflexivity.
Qed.

(** C6 (amended): under [{'last': N}] the stored reference keeps the
    initial reference until the first successful [predict]; from then on
    (and from the start when the initial reference has at most [N]
    instances) it is the last [min(N, total)] instances seen, in order,
    counting the initial reference and the batches of the successful
    calls (failed calls change nothing). *)
Theorem fixed_window_reference : forall N calls d0 d log,
  update_X_ref d0 = Last N -> run d0 calls = (d, log) ->
  (log = [] -> X_ref d = X_ref d0) /\
  (log <> [] \/ length (X_ref d0) <= N ->
     X_ref d = lastn N (X_ref d0 ++ concat log) /\
     length (X_ref d) = Nat.min N (length (X_ref d0 ++ concat log))).
Proof.
  intros N calls d0 d log Hu Hr.
  destruct (run_fixed_window N calls d0 d log Hu Hr) as [_ Hx].
  assert (Hw : log <> [] \/ length (X_ref d0) <= N ->
               X_ref d = lastn N (X_ref d0 ++ concat log)).
  { intros [Hne|Hle]; rewrite Hx; destruct log as [|b bs]; try reflexivity.
    - congruence.
    - simpl; rewrite app_nil_r, lastn_short by exact Hle; reflexivity. }
  split.
  - intros ->; exact Hx.
  - intros H; split; [exact (Hw H)|rewrite (Hw H); apply length_lastn].
Qed.

Lemma fixed_window_reference_witness :
  let d0 := example_detector "bonferroni" 1 small_ref (Last 2) in
  let calls := [(small_test, Batch, true)] in
  snd (run d0 calls) <> [] /\
  X_ref (fst (run d0 calls)) = lastn 2 (X_ref d0 ++ concat (snd (run d0 calls))).
Proof.
  intros d0 calls.
  assert (Hne : snd (run d0 calls) <> []) by (vm_compute; discriminate).
  split; [exact Hne|].
  destruct (fixed_window_reference 2 calls d0 _ _ eq_refl (surjective_pairing _))
    as [_ H]; apply H; left; exact Hne.
Defined.

(** C6 fails as stated: before any [predict] call, an initial reference
    longer than the window is kept whole. *)
Lemma fixed_window_initial_reference :
  ~ (forall N calls d0 d log,
       update_X_ref d0 = Last N -> run d0 calls = (d, log) ->
       length (X_ref d) = Nat.min N (length (X_ref d0 ++ concat log))).
Proof.
  intros H.
  specialize (H 1 [] (example_detector "bonferroni" 1 small_ref (Last 1)) _ _ eq_refl eq_refl).
  vm_compute in H; discriminate.
Qed.

(** *** Reservoir sampling *)

Lemma mem_In x l : mem x l = true <-> In x l.
Proof.
  unfold mem; rewrite existsb_exists; split.
  - intros [y [Hy E]]; apply Nat.eqb_eq in E; subst; exact Hy.
  - intros H; exists x; split; [exact H|apply Nat.eqb_refl].
Qed.

Lemma skipn_nth_cons {A} (l : list A) j d :
  j < length l -> skipn j l = nth j l d :: skipn (S j) l.
Proof.
  revert j; induction l as [|a l IH]; intros [|j] Hj; simpl in *; try lia; auto.
  apply IH; lia.
Qed.

Lemma replace_nth_decomp {A} (l : list A) j y d :
  j < length l -> exists l1 l2,
    l = l1 ++ nth j l d :: l2 /\ replace_nth j y l = l1 ++ y :: l2.
Proof.
  intros Hj; exists (firstn j l), (skipn (S j) l); split; [|reflexivity].
  rewrite <- (skipn_nth_cons l j d Hj); symmetry; apply firstn_skipn.
Qed.

Lemma replace_nth_length {A} (l : list A) j y :
  j < length l -> length (replace_nth j y l) = length l.
Proof.
  intros Hj; unfold replace_nth.
  rewrite length_app, length_firstn; cbn [length]; rewrite length_skipn; lia.
Qed.

Lemma replace_nth_In (l : list nat) j y z :
  j < length l -> In z (replace_nth j y l) -> z = y \/ In z l.
Proof.
  intros Hj H; destruct (replace_nth_decomp l j y 0 Hj) as (l1 & l2 & E1 & E2).
  rewrite E2 in H; rewrite E1; apply in_app_or in H.
  destruct H as [H|[H|H]].
  - right; apply in_or_app; left; exact H.
  - left; symmetry; exact H.
  - right; apply in_or_app; right; right; exact H.
Qed.

Lemma replace_nth_NoDup (l : list nat) j y :
  j < length l -> NoDup l -> ~ In y l -> NoDup (replace_nth j y l).
Proof.
  intros Hj Hnd Hy.
  destruct (replace_nth_decomp l j y 0 Hj) as (l1 & l2 & E1 & E2).
  rewrite E2; rewrite E1 in Hnd, Hy.
  apply (Permutation_NoDup (Permutation_middle l1 l2 y)).
  constructor.
  - intros H; apply Hy; apply in_app_or in H; apply in_or_app.
    destruct H as [H|H]; [left; exact H|right; right; exact H].
  - exact (NoDup_remove_1 _ _ _ Hnd).
Qed.

(** Overwriting slot [j] with a new item [y] removes exactly the item
    held there. *)
Lemma mem_replace_nth l j y x :
  j < length l -> NoDup l -> x <> y ->
  mem x (replace_nth j y l) = mem x l && negb (nth j l 0 =? x).
Proof.
  intros Hj Hnd Hxy.
  destruct (replace_nth_decomp l j y 0 Hj) as (l1 & l2 & E1 & E2).
  rewrite E2; remember (nth j l 0) as a eqn:Ea; clear Ea E2.
  rewrite E1 in Hnd |- *; clear E1.
  destruct (Nat.eqb_spec a x) as [->|Hax].
  - rewrite andb_false_r.
    destruct (mem x (l1 ++ y :: l2)) eqn:M; [|reflexivity].
    apply mem_In, in_app_or in M; exfalso.
    apply (NoDup_remove_2 _ _ _ Hnd); apply in_or_app.
    destruct M as [M|[M|M]]; [left; exact M|congruence|right; exact M].
  - rewrite andb_true_r; apply Bool.eq_iff_eq_true; rewrite !mem_In, !in_app_iff; simpl.
    split; intros [H|[H|H]]; auto; congruence.
Qed.

Lemma count_lt_seq N L : length (filter (fun j => j <? N) (seq 0 L)) = Nat.min N L.
Proof.
  induction L as [|L IH]; [simpl; lia|].
  rewrite seq_S, filter_app, length_app, IH; simpl.
  destruct (Nat.ltb_spec L N); simpl; lia.
Qed.

Lemma count_eq_seq k L :
  length (filter (fun j => j =? k) (seq 0 L)) = if k <? L then 1 else 0.
Proof.
  induction L as [|L IH]; [reflexivity|].
  rewrite seq_S, filter_app, length_app, IH; simpl.
  destruct (Nat.ltb_spec k L), (Nat.ltb_spec k (S L)), (Nat.eqb_spec L k); simpl; lia.
Qed.

Lemma filter_split_length {A} (f : A -> bool) l :
  length (filter f l) + length (filter (fun a => negb (f a)) l) = length l.
Proof. induction l as [|a l IH]; [reflexivity|]; simpl; destruct (f a); simpl; lia. Qed.

Lemma filter_map_length {A B} (f : B -> bool) (g : A -> B) l :
  length (filter f (map g l)) = length (filter (fun a => f (g a)) l).
Proof. induction l as [|a l IH]; [reflexivity|]; simpl; destruct (f (g a)); simpl; lia. Qed.

Lemma filter_const_false {A} (f : A -> bool) l : (forall a, f a = false) -> filter f l = [].
Proof. intros H; induction l as [|a l IH]; simpl; [reflexivity|rewrite H; exact IH]. Qed.

Lemma flat_map_length_const {A B} (f : A -> list B) c l :
  (forall a, In a l -> length (f a) = c) -> length (flat_map f l) = c * length l.
Proof.
  induction l as [|a l IH]; intros H; simpl; [lia|].
  rewrite length_app, H by (left; reflexivity).
  rewrite IH by (intros; apply H; right; assumption); lia.
Qed.

Lemma filter_flat_map_const {A B} (P : B -> bool) (f : A -> list B) c l :
  (forall a, In a l -> length (filter P (f a)) = c) ->
  length (filter P (flat_map f l)) = c * length l.
Proof.
  induction l as [|a l IH]; intros H; simpl; [lia|].
  rewrite filter_app, length_app, H by (left; reflexivity).
  rewrite IH by (intros; apply H; right; assumption).
  lia.
Qed.

Lemma filter_flat_map_length {A B} (P : B -> bool) (f : A -> list B) (sel : A -> bool) c l :
  (forall a, In a l -> length (filter P (f a)) = if sel a then c else 0) ->
  length (filter P (flat_map f l)) = c * length (filter sel l).
Proof.
  induction l as [|a l IH]; intros H; simpl; [lia|].
  rewrite filter_app, length_app, H by (left; reflexivity).
  rewrite IH by (intros; apply H; right; assumption).
  destruct (sel a); simpl; lia.
Qed.

Lemma reservoir_step_full {A} N (res : list A) x j :
  length res = N -> reservoir_step N res x j = if j <? N then replace_nth j x res else res.
Proof. intros H; unfold reservoir_step; rewrite H, Nat.ltb_irrefl; reflexivity. Qed.

Lemma reservoir_draws_full {A} N seen (res : list A) :
  length res = N -> reservoir_draws N seen res = seq 0 (S seen).
Proof. intros H; unfold reservoir_draws; rewrite H, Nat.ltb_irrefl; reflexivity. Qed.

(** Over the [S t] draws for item [t], the number of resulting
    reservoirs holding [x]. *)
Lemma slot_count N t (res : list nat) x :
  length res = N -> N <= t -> NoDup res -> (forall y, In y res -> y < t) -> x <= t ->
  length (filter (mem x) (map (reservoir_step N res t) (seq 0 (S t)))) =
  if x =? t then N else if mem x res then t else 0.
Proof.
  intros Hlen HNt Hnd Hlt Hx.
  rewrite filter_map_length.
  destruct (Nat.eqb_spec x t) as [->|Hxt].
  - rewrite (filter_ext _ (fun j => j <? N)), count_lt_seq; [lia|].
    intros j; rewrite reservoir_step_full by exact Hlen.
    destruct (Nat.ltb_spec j N) as [Hj|Hj].
    + apply mem_In.
      destruct (replace_nth_decomp res j t 0 ltac:(lia)) as (l1 & l2 & _ & ->).
      apply in_or_app; right; left; reflexivity.
    + destruct (mem t res) eqn:M; [|reflexivity].
      apply mem_In, Hlt in M; lia.
  - assert (Hstep : forall j, mem x (reservoir_step N res t j) =
                 mem x res && negb ((j <? N) && (nth j res 0 =? x))).
    { intros j; rewrite reservoir_step_full by exact Hlen.
      destruct (Nat.ltb_spec j N) as [Hj|Hj]; simpl.
      - apply mem_replace_nth; [lia|exact Hnd|exact Hxt].
      - rewrite andb_true_r; reflexivity. }
    rewrite (filter_ext _ _ Hstep).
    destruct (mem x res) eqn:M.
    + apply mem_In in M; destruct (In_nth res x 0 M) as [k [Hk Hkx]].
      rewrite (filter_ext _ (fun j => negb (j =? k))).
      * pose proof (filter_split_length (fun j => j =? k) (seq 0 (S t))) as Hs.
        rewrite count_eq_seq, length_seq in Hs.
        destruct (Nat.ltb_spec k (S t)); lia.
      * intros j; simpl; f_equal.
        destruct (Nat.ltb_spec j N) as [Hj|Hj]; simpl.
        -- apply Bool.eq_iff_eq_true; rewrite !Nat.eqb_eq; split; [|intros ->; exact Hkx].
           intros Hjx; apply (proj1 (NoDup_nth res 0) Hnd); [lia|lia|congruence].
        -- symmetry; apply Nat.eqb_neq; lia.
    + rewrite filter_const_false; [reflexivity|intros; reflexivity].
Qed.

Lemma reservoir_inv_base N : reservoir_inv N N [seq 0 N].
Proof.
  split; [|split].
  - intros res [<-|[]]; split; [apply length_seq|split; [apply seq_NoDup|]].
    intros y Hy; apply in_seq in Hy; lia.
  - intros x Hx; unfold inclusion_count; simpl.
    assert (mem x (seq 0 N) = true) as -> by (apply mem_In, in_seq; lia).
    simpl; lia.
  - simpl; lia.
Qed.

Lemma reservoir_inv_step N t dist :
  N <= t -> reservoir_inv N t dist -> reservoir_inv N (S t) (reservoir_round N t dist t).
Proof.
  intros HNt (Hres & Hcnt & Hpos).
  assert (Hlen : length (reservoir_round N t dist t) = S t * length dist).
  { unfold reservoir_round; apply flat_map_length_const.
    intros res Hr; rewrite length_map, reservoir_draws_full by exact (proj1 (Hres res Hr)).
    apply length_seq. }
  split; [|split].
  - intros res' Hin; unfold reservoir_round in Hin.
    apply in_flat_map in Hin as [res [Hr Hin]].
    apply in_map_iff in Hin as [j [<- Hj]].
    destruct (Hres res Hr) as (Hl & Hnd & Hlt).
    rewrite reservoir_step_full by exact Hl.
    destruct (Nat.ltb_spec j N) as [HjN|HjN].
    + split; [rewrite replace_nth_length by lia; exact Hl|split].
      * apply replace_nth_NoDup; [lia|exact Hnd|intros H; apply Hlt in H; lia].
      * intros y Hy; destruct (replace_nth_In res j t y ltac:(lia) Hy) as [->|Hy'];
          [lia|apply Hlt in Hy'; lia].
    + split; [exact Hl|split; [exact Hnd|intros y Hy; apply Hlt in Hy; lia]].
  - intros x Hx; unfold inclusion_count; rewrite Hlen; unfold reservoir_round.
    destruct (Nat.eqb_spec x t) as [->|Hxt].
    + rewrite (filter_flat_map_const _ _ N); [lia|].
      intros res Hr; destruct (Hres res Hr) as (Hl & Hnd & Hlt).
      rewrite reservoir_draws_full by exact Hl.
      rewrite slot_count by (first [assumption|lia]).
      rewrite Nat.eqb_refl; reflexivity.
    + rewrite (filter_flat_map_length _ _ (mem x) t).
      * replace (t * length (filter (mem x) dist) * S t)
          with (S t * (inclusion_count x dist * t)) by (unfold inclusion_count; lia).
        rewrite Hcnt by lia; lia.
      * intros res Hr; destruct (Hres res Hr) as (Hl & Hnd & Hlt).
        rewrite reservoir_draws_full by exact Hl.
        rewrite slot_count by (first [assumption|lia]).
        destruct (Nat.eqb_spec x t); [lia|reflexivity].
  - rewrite Hlen; lia.
Qed.

Lemma reservoir_outcomes_app {A} N seen dist (xs : list A) x :
  reservoir_outcomes N seen dist (xs ++ [x]) =
  reservoir_round N (seen + length xs) (reservoir_outcomes N seen dist xs) x.
Proof.
  revert seen dist; induction xs as [|y xs IH]; intros seen dist; simpl.
  - rewrite Nat.add_0_r; reflexivity.
  - rewrite IH; f_equal; lia.
Qed.

Lemma reservoir_fill N t : t <= N ->
  reservoir_outcomes N 0 [[]] (seq 0 t) = [seq 0 t].
Proof.
  induction t as [|t IH]; intros Ht; [reflexivity|].
  rewrite seq_S, reservoir_outcomes_app, IH by lia.
  unfold reservoir_round, reservoir_draws, reservoir_step; simpl flat_map.
  rewrite length_seq; destruct (Nat.ltb_spec t N); [reflexivity|lia].
Qed.

Lemma reservoir_inv_all N t : N <= t ->
  reservoir_inv N t (reservoir_outcomes N 0 [[]] (seq 0 t)).
Proof.
  induction t as [|t IH]; intros Ht.
  - assert (N = 0) by lia; subst; exact (reservoir_inv_base 0).
  - destruct (Nat.eq_dec N (S t)) as [->|Hne].
    + rewrite reservoir_fill by lia; apply reservoir_inv_base.
    + rewrite seq_S, reservoir_outcomes_app, length_seq.
      replace (0 + t) with t by lia.
      apply reservoir_inv_step; [lia|apply IH; lia].
Qed.

(** Any run whose draws lie in range ends in one of the outcomes. *)
Lemma reservoir_sampling_outcome {A} N rg (res : list A) seen sd xs dist :
  (forall s b, 0 < b -> fst (rg s b) < b) -> In res dist ->
  In (fst (reservoir_sampling N rg res seen sd xs)) (reservoir_outcomes N seen dist xs).
Proof.
  intros Hrg; revert res seen sd dist.
  induction xs as [|x xs IH]; intros res seen sd dist Hin; simpl; [exact Hin|].
  destruct (length res <? N) eqn:Hl.
  - apply IH; unfold reservoir_round; apply in_flat_map; exists res; split; [exact Hin|].
    apply in_map_iff; exists 0; split; [reflexivity|].
    unfold reservoir_draws; rewrite Hl; left; reflexivity.
  - destruct (rg sd (S seen)) as [j sd'] eqn:Hr.
    apply IH; unfold reservoir_round; apply in_flat_map; exists res; split; [exact Hin|].
    apply in_map_iff; exists j; split; [reflexivity|].
    unfold reservoir_draws; rewrite Hl; apply in_seq.
    pose proof (Hrg sd (S seen) ltac:(lia)) as Hb; rewrite Hr in Hb; simpl in Hb; lia.
Qed.

(** C7: reservoir sampling of size [N] over a stream of [M >= N]
    instances, labelled [0 .. M-1], with every draw sequence equally
    likely.  (a) The final reservoir of any run whose draws lie in range
    is one of the outcomes [outs].  (b) Once the reservoir is full, the
    draw for a new item is uniform over the [S seen] counts seen so far;
    [N] of these draws replace a reservoir slot, each slot [k < N] by
    exactly one draw, and the others leave the reservoir as it is, so the
    new item replaces a uniformly chosen reservoir instance with
    probability [N/(S seen)].  (c) Every instance lies in the fraction
    exactly [N/M] of the outcomes. *)
Theorem reservoir_uniform_inclusion (N M : nat) :
  1 <= N <= M ->
  let outs := reservoir_outcomes N 0 [[]] (seq 0 M) in
  (forall rg sd, (forall s b, 0 < b -> fst (rg s b) < b) ->
     In (fst (reservoir_sampling N rg [] 0 sd (seq 0 M))) outs) /\
  (forall (res : list nat) x seen, length res = N -> N <= seen ->
     reservoir_draws N seen res = seq 0 (S seen) /\
     length (filter (fun j => j <? N) (reservoir_draws N seen res)) = N /\
     (forall k, k < N ->
        reservoir_step N res x k = replace_nth k x res /\
        length (filter (fun j => j =? k) (reservoir_draws N seen res)) = 1) /\
     (forall j, N <= j -> reservoir_step N res x j = res)) /\
  0 < length outs /\
  (forall x, x < M ->
     inclusion_count x outs * M = N * length outs /\
     (Q_of_nat (inclusion_count x outs) / Q_of_nat (length outs)
        == Q_of_nat N / Q_of_nat M)%Q).
Proof.
  intros HNM outs.
  destruct (reservoir_inv_all N M ltac:(lia)) as (_ & Hcnt & Hpos).
  change (reservoir_outcomes N 0 [[]] (seq 0 M)) with outs in Hcnt, Hpos.
  split; [|split; [|split]].
  - intros rg sd Hrg; apply reservoir_sampling_outcome; [exact Hrg|left; reflexivity].
  - intros res x seen Hl Hs; rewrite reservoir_draws_full by exact Hl.
    split; [reflexivity|split; [rewrite count_lt_seq; lia|split]].
    + intros k Hk; split.
      * rewrite reservoir_step_full by exact Hl.
        destruct (Nat.ltb_spec k N); [reflexivity|lia].
      * rewrite count_eq_seq; destruct (Nat.ltb_spec k (S seen)); [reflexivity|lia].
    + intros j Hj; rewrite reservoir_step_full by exact Hl.
      destruct (Nat.ltb_spec j N); [lia|reflexivity].
  - exact Hpos.
  - intros x Hx; pose proof (Hcnt x Hx) as Hc; split; [exact Hc|].
    assert (HM : ~ (Q_of_nat M == 0)%Q).
    { unfold Q_of_nat; change 0%Q with (inject_Z 0); rewrite inject_Z_injective; lia. }
    assert (HL : ~ (Q_of_nat (length outs) == 0)%Q).
    { unfold Q_of_nat; change 0%Q with (inject_Z 0); rewrite inject_Z_injective; lia. }
    field_simplify_eq; [|split; assumption].
    unfold Q_of_nat; rewrite <- !inject_Z_mult; apply inject_Z_injective; nia.
Qed.

Lemma reservoir_uniform_inclusion_witness :
  1 <= 2 <= 4 /\
  inclusion_count 0 (reservoir_outcomes 2 0 [[]] (seq 0 4)) * 4 =
  2 * length (reservoir_outcomes 2 0 [[]] (seq 0 4)).
Proof.
  split; [lia|].
  pose proof (reservoir_uniform_inclusion 2 4 ltac:(lia)) as H; cbv zeta in H.
  destruct H as (_ & _ & _ & H).
  exact (proj1 (H 0 ltac:(lia))).
Defined.

(** ** Further properties of the documented behaviour *)

(** *** Reference updates *)

Lemma replace_nth_incl {A} (l : list A) j y z :
  In z (replace_nth j y l) -> z = y \/ In z l.
Proof.
  unfold replace_nth; intros H; apply in_app_or in H; destruct H as [H|[H|H]].
  - right; rewrite <- (firstn_skipn j l); apply in_or_app; left; exact H.
  - left; symmetry; exact H.
  - right; rewrite <- (firstn_skipn (S j) l); apply in_or_app; right; exact H.
Qed.

Lemma lastn_incl {A} N (l : list A) z : In z (lastn N l) -> In z l.
Proof.
  unfold lastn; intros H; rewrite <- (firstn_skipn (length l - N) l).
  apply in_or_app; right; exact H.
Qed.

Lemma reservoir_step_incl {A} N (res : list A) x j z :
  In z (reservoir_step N res x j) -> z = x \/ In z res.
Proof.
  unfold reservoir_step; destruct (length res <? N).
  - intros H; apply in_app_or in H; destruct H as [H|[H|[]]]; [right|left]; auto.
  - destruct (j <? N); [apply replace_nth_incl|intros H; right; exact H].
Qed.

Lemma reservoir_sampling_incl {A} N r (res : list A) seen sd xs z :
  In z (fst (reservoir_sampling N r res seen sd xs)) -> In z res \/ In z xs.
Proof.
  revert res seen sd; induction xs as [|x xs IH]; intros res seen sd; simpl.
  - intros H; left; exact H.
  - destruct (if length res <? N then (0, sd) else r sd (S seen)) as [j sd'].
    intros H; destruct (IH _ _ _ H) as [H'|H'].
    + destruct (reservoir_step_incl N res x j z H') as [->|H'']; auto.
    + auto.
Qed.

Lemma update_reference_incl d x z :
  In z (X_ref (update_reference d x)) -> In z (X_ref d) \/ In z (stored_batch d x).
Proof.
  unfold update_reference; cbv zeta.
  destruct (update_X_ref d) as [|N|N]; simpl.
  - intros H; left; exact H.
  - intros H; apply lastn_incl, in_app_or in H; exact H.
  - destruct (reservoir_sampling N (rng d) (X_ref d) (n d) (seed d) (stored_batch d x))
      as [xr sd] eqn:E; simpl.
    intros H; apply (reservoir_sampling_incl N (rng d) (X_ref d) (n d) (seed d)).
    rewrite E; exact H.
Qed.

Lemma update_reference_settings d x : settings (update_reference d x) = settings d.
Proof.
  unfold update_reference; cbv zeta.
  destruct (match update_X_ref d with
            | NoUpdate => (X_ref d, seed d)
            | Last N => (lastn N (X_ref d ++ stored_batch d x), seed d)
            | ReservoirSampling N =>
                reservoir_sampling N (rng d) (X_ref d) (n d) (seed d) (stored_batch d x)
            end) as [xr sd]; reflexivity.
Qed.

Lemma predict_next_state d x dt rp :
  snd (predict d x dt rp) = d \/ snd (predict d x dt rp) = update_reference d x.
Proof.
  destruct (predict d x dt rp) as [[e|r] d'] eqn:E.
  - pose proof (predict_failure_state d x dt rp e) as F; rewrite E in F; simpl in F.
    left; apply F; reflexivity.
  - right; destruct (predict_success _ _ _ _ _ _ E) as (_ & c & _ & _ & _ & ->); reflexivity.
Qed.


Lemma reservoir_sampling_fill {A} N r (res : list A) seen sd xs :
  length res + length xs <= N -> reservoir_sampling N r res seen sd xs = (res ++ xs, sd).
Proof.
  revert res seen; induction xs as [|x xs IH]; intros res seen Hl; simpl.
  - rewrite app_nil_r; reflexivity.
  - simpl in Hl; assert (Hlt : (length res <? N) = true) by (apply Nat.ltb_lt; lia).
    rewrite Hlt; simpl; unfold reservoir_step at 1; rewrite Hlt.
    rewrite IH by (rewrite length_app; simpl; lia).
    rewrite <- app_assoc; reflexivity.
Qed.

Lemma reservoir_sampling_app {A} N r (res : list A) seen sd xs ys :
  reservoir_sampling N r res seen sd (xs ++ ys) =
  let '(res', sd') := reservoir_sampling N r res seen sd xs in
  reservoir_sampling N r res' (seen + length xs) sd' ys.
Proof.
  revert res seen sd; induction xs as [|x xs IH]; intros res seen sd; simpl.
  - rewrite Nat.add_0_r; reflexivity.
  - destruct (if length res <? N then (0, sd) else r sd (S seen)) as [j sd'].
    rewrite IH; destruct (reservoir_sampling N r (reservoir_step N res x j) (S seen) sd' xs).
    replace (S seen + length xs) with (seen + S (length xs)) by lia; reflexivity.
Qed.

Lemma stored_batch_id d x :
  preprocess_fn d = None \/ preprocess_X_ref d = false -> stored_batch d x = x.
Proof.
  unfold stored_batch, preprocess; intros [H|H]; rewrite H; [|reflexivity].
  destruct (preprocess_X_ref d); reflexivity.
Qed.



(** X2: with [{'reservoir_sampling': N}], while the reference and the new
    instances together fit in [N], the update appends all new instances in
    order and draws no random number. *)
Theorem reservoir_update_fills : forall d x N,
  update_X_ref d = ReservoirSampling N ->
  length (X_ref d) + length (stored_batch d x) <= N ->
  X_ref (update_reference d x) = X_ref d ++ stored_batch d x /\
  seed (update_reference d x) = seed d.
Proof.
  intros d x N H Hl; unfold update_reference; cbv zeta; rewrite H.
  rewrite reservoir_sampling_fill by exact Hl; split; reflexivity.
Qed.

Lemma reservoir_update_fills_witness :
  let d := example_detector "bonferroni" 1 small_ref (ReservoirSampling 5) in
  update_X_ref d = ReservoirSampling 5 /\
  length (X_ref d) + length (stored_batch d small_test) <= 5 /\
  X_ref (update_reference d small_test) = X_ref d ++ stored_batch d small_test.
Proof.
  intros d.
  assert (H1 : update_X_ref d = ReservoirSampling 5) by reflexivity.
  assert (H2 : length (X_ref d) + length (stored_batch d small_test) <= 5)
    by (vm_compute; lia).
  split; [exact H1|split; [exact H2|]].
  exact (proj1 (reservoir_update_fills d small_test 5 H1 H2)).
Defined.

(** X3: whatever the update policy, after any sequence of [predict] calls
    every instance of the stored reference is an instance of the initial
    reference or of a batch passed to a successful call. *)
Theorem run_reference_incl : forall calls d z,
  In z (X_ref (fst (run d calls))) ->
  In z (X_ref d) \/ In z (concat (snd (run d calls))).
Proof.
  induction calls as [|[[x dt] rp] cs IH]; intros d z; simpl; [auto|].
  destruct (predict d x dt rp) as [r d1] eqn:Ep.
  destruct (run d1 cs) as [d2 log] eqn:Er; simpl; intros H.
  pose proof (IH d1 z) as IH1; rewrite Er in IH1; simpl in IH1.
  destruct (IH1 H) as [H1|H1].
  - destruct r as [e|r].
    + pose proof (predict_failure_state d x dt rp e) as F; rewrite Ep in F; simpl in F.
      rewrite (F eq_refl) in H1; left; exact H1.
    + destruct (predict_success _ _ _ _ _ _ Ep) as (_ & c & _ & _ & _ & ->).
      destruct (update_reference_incl d x z H1) as [H2|H2]; [left; exact H2|].
      right; simpl; apply in_or_app; left; exact H2.
  - right; destruct r as [e|r]; simpl; [exact H1|apply in_or_app; right; exact H1].
Qed.

Lemma run_settings calls d : settings (fst (run d calls)) = settings d.
Proof.
  revert d; induction calls as [|[[x dt] rp] cs IH]; intros d; simpl; [reflexivity|].
  destruct (predict d x dt rp) as [r d1] eqn:Ep.
  destruct (run d1 cs) as [d2 log] eqn:Er; simpl.
  pose proof (IH d1) as IH1; rewrite Er in IH1; simpl in IH1; rewrite IH1.
  destruct (predict_next_state d x dt rp) as [E|E]; rewrite Ep in E; simpl in E; subst d1;
    [reflexivity|apply update_reference_settings].
Qed.

Lemma run_reference_incl_witness :
  let d := example_detector "fdr" 1 small_ref (Last 3) in
  let calls := [(small_test, Batch, true)] in
  In [6%Q] (X_ref (fst (run d calls))) /\
  (In [6%Q] (X_ref d) \/ In [6%Q] (concat (snd (run d calls)))).
Proof.
  intros d calls.
  assert (H : In [6%Q] (X_ref (fst (run d calls)))).
  { vm_compute; right; right; left; reflexivity. }
  split; [exact H|].
  exact (run_reference_incl calls d [6%Q] H).
Defined.

(** X4: [predict] never changes the configuration of the detector: after
    any sequence of calls, [p_val], [preprocess_X_ref], [update_X_ref],
    [preprocess_fn], [correction], [alternative], [n_features] and
    [data_type] are those it was built with. *)
Theorem run_keeps_settings : forall calls d,
  p_val (fst (run d calls)) = p_val d /\
  preprocess_X_ref (fst (run d calls)) = preprocess_X_ref d /\
  update_X_ref (fst (run d calls)) = update_X_ref d /\
  preprocess_fn (fst (run d calls)) = preprocess_fn d /\
  correction (fst (run d calls)) = correction d /\
  alternative (fst (run d calls)) = alternative d /\
  n_features (fst (run d calls)) = n_features d /\
  data_type (fst (run d calls)) = data_type d.
Proof.
  intros calls d; pose proof (run_settings calls d) as H; unfold settings in H.
  injection H; intros; repeat split; assumption.
Qed.

(** X5: without [update_X_ref] the reference never changes, whatever
    sequence of [predict] calls is made. *)
Theorem run_no_update_reference : forall calls d,
  update_X_ref d = NoUpdate -> X_ref (fst (run d calls)) = X_ref d.
Proof.
  induction calls as [|[[x dt] rp] cs IH]; intros d Hu; simpl; [reflexivity|].
  destruct (predict d x dt rp) as [r d1] eqn:Ep.
  destruct (run d1 cs) as [d2 log] eqn:Er; simpl.
  assert (Hd1 : update_X_ref d1 = NoUpdate /\ X_ref d1 = X_ref d).
  { destruct (predict_next_state d x dt rp) as [E|E]; rewrite Ep in E; simpl in E;
      subst d1; [split; [exact Hu|reflexivity]|].
    split.
    - pose proof (update_reference_settings d x) as S; unfold settings in S.
      injection S; intros; congruence.
    - unfold update_reference; cbv zeta; rewrite Hu; reflexivity. }
  destruct Hd1 as [Hu1 Hx1].
  pose proof (IH d1 Hu1) as IH1; rewrite Er in IH1; simpl in IH1; congruence.
Qed.

Lemma run_no_update_reference_witness :
  let d := example_detector "bonferroni" 1 small_ref NoUpdate in
  update_X_ref d = NoUpdate /\
  X_ref (fst (run d [(small_test, Batch, true); (small_test, Feature, false)])) = X_ref d.
Proof.
  intros d; split; [reflexivity|].
  apply run_no_update_reference; reflexivity.
Defined.

(** X6: when [preprocess_fn] is unset or the reference is stored
    unpreprocessed, passing [x1] then [x2] to the reference update leaves
    the detector (reference, random state, instance count) exactly as
    passing [x1 ++ x2] at once, for every update policy. *)
Theorem update_reference_split : forall d x1 x2,
  preprocess_fn d = None \/ preprocess_X_ref d = false ->
  update_reference (update_reference d x1) x2 = update_reference d (x1 ++ x2).
Proof.
  intros d x1 x2 Hp.
  destruct d as [pv xr pxr upd pf corr alt nf nn sd rg dt]; simpl in Hp.
  assert (Hs : forall x, (if pxr then match pf with Some f => f x | None => x end else x) = x).
  { intros x; destruct Hp as [->| ->]; [destruct pxr|]; reflexivity. }
  unfold update_reference, stored_batch, preprocess; simpl; rewrite !Hs.
  rewrite length_app, Nat.add_assoc.
  destruct upd as [|N|N]; simpl; rewrite ?Hs.
  - reflexivity.
  - rewrite lastn_lastn_app, app_assoc; reflexivity.
  - rewrite reservoir_sampling_app.
    destruct (reservoir_sampling N rg xr nn sd x1) as [xr1 sd1]; simpl; rewrite Hs.
    reflexivity.
Qed.

Lemma update_reference_split_witness :
  let d := example_detector "bonferroni" 1 small_ref (ReservoirSampling 2) in
  (preprocess_fn d = None \/ preprocess_X_ref d = false) /\
  update_reference (update_reference d [[5%Q]]) [[6%Q]] = update_reference d small_test.
Proof.
  intros d; assert (H : preprocess_fn d = None \/ preprocess_X_ref d = false)
    by (left; reflexivity).
  split; [exact H|exact (update_reference_split d [[5%Q]] [[6%Q]] H)].
Defined.

(** *** Corrections *)

Lemma Q_of_nat_nonneg k : (0 <= Q_of_nat k)%Q.
Proof. unfold Q_of_nat; change 0%Q with (inject_Z 0); rewrite <- Zle_Qle; lia. Qed.

Lemma Q_of_nat_le k m : k <= m -> (Q_of_nat k <= Q_of_nat m)%Q.
Proof. intros H; unfold Q_of_nat; rewrite <- Zle_Qle; lia. Qed.

Lemma Qmult_le_mono_nonneg_l x y z : (0 <= z -> x <= y -> z * x <= z * y)%Q.
Proof.
  intros Hz Hxy; rewrite (Qmult_comm z x), (Qmult_comm z y).
  apply Qmult_le_compat_r; assumption.
Qed.

Lemma ratio_range k m : k <= m -> (0 <= Q_of_nat k / Q_of_nat m <= 1)%Q.
Proof.
  intros H; destruct m as [|m].
  - assert (k = 0) as -> by lia; split; vm_compute; discriminate.
  - assert (Hm : (0 < Q_of_nat (S m))%Q).
    { unfold Q_of_nat; change 0%Q with (inject_Z 0); rewrite <- Zlt_Qlt; lia. }
    split.
    + apply Qle_shift_div_l; [exact Hm|]; rewrite Qmult_0_l; apply Q_of_nat_nonneg.
    + apply Qle_shift_div_r; [exact Hm|]; rewrite Qmult_1_l; apply Q_of_nat_le; exact H.
Qed.

Lemma Qdiv_nonneg_mono t t' q : (0 <= q)%Q -> (t <= t')%Q -> (t / q <= t' / q)%Q.
Proof.
  intros Hq H; unfold Qdiv; apply Qmult_le_compat_r; [exact H|].
  apply Qinv_le_0_compat; exact Hq.
Qed.

Lemma flag_le_1 b : flag b <= 1.
Proof. destruct b; simpl; lia. Qed.

(** X7: raising [p_val] never removes a detection: if the batch is
    flagged as drifted at threshold [t], it is flagged at every
    [t' >= t], under either correction; and every feature flagged at [t]
    is flagged at [t']. *)
Theorem drift_monotone_in_p_val : forall c nf ps t t', (t <= t')%Q ->
  (aggregate c t nf Batch ps = Scalar 1 -> aggregate c t' nf Batch ps = Scalar 1) /\
  (forall bs bs', aggregate c t nf Feature ps = PerFeature bs ->
     aggregate c t' nf Feature ps = PerFeature bs' -> Forall2 le bs bs').
Proof.
  intros c nf ps t t' Htt; split.
  - unfold aggregate; intros H; injection H; clear H; intros H.
    destruct c.
    + destruct (bonferroni_drift t nf ps) eqn:E; [|discriminate H].
      apply bonferroni_drift_iff in E as (m & Hm & Hmin & Hle).
      replace (bonferroni_drift t' nf ps) with true; [reflexivity|].
      symmetry; apply bonferroni_drift_iff; exists m; split; [exact Hm|split; [exact Hmin|]].
      eapply Qle_trans; [exact Hle|apply Qdiv_nonneg_mono; [apply Q_of_nat_nonneg|exact Htt]].
    + destruct (fst (fdr t ps)) eqn:E; [|discriminate H].
      apply fdr_drift_iff in E as (k & Hk & Hle & _).
      replace (fst (fdr t' ps)) with true; [reflexivity|].
      symmetry; apply (fdr_drift_of_k t' ps k Hk).
      eapply Qle_trans; [exact Hle|].
      apply Qmult_le_mono_nonneg_l; [apply (ratio_range k (length ps)); lia|exact Htt].
  - intros bs bs' H H'; unfold aggregate in H, H'.
    injection H; injection H'; intros <- <-; clear H H'.
    induction ps as [|p ps IH]; simpl; constructor; [|exact IH].
    destruct (Qle_bool p t) eqn:E; simpl; [|lia].
    apply Qle_bool_iff in E.
    replace (Qle_bool p t') with true; [simpl; lia|].
    symmetry; apply Qle_bool_iff; eapply Qle_trans; [exact E|exact Htt].
Qed.

Lemma drift_monotone_in_p_val_witness :
  (1 # 100 <= 5 # 100)%Q /\ aggregate FDR (5 # 100) 2 Batch [0%Q; 1%Q] = Scalar 1.
Proof.
  assert (H : (1 # 100 <= 5 # 100)%Q) by (vm_compute; discriminate).
  split; [exact H|].
  apply (proj1 (drift_monotone_in_p_val FDR 2 [0%Q; 1%Q] _ _ H)); vm_compute; reflexivity.
Defined.

(** X8: with a single feature the correction makes no difference: both
    corrections flag the batch exactly when its p-value is at most
    [p_val], the same verdict as the feature-level test. *)
Theorem single_feature_corrections_agree : forall c thr p,
  aggregate c thr 1 Batch [p] = Scalar (flag (Qle_bool p thr)) /\
  aggregate c thr 1 Feature [p] = PerFeature [flag (Qle_bool p thr)].
Proof.
  intros c thr p; split; [|reflexivity].
  assert (Ethr : forall q, (q == thr)%Q -> Qle_bool p q = Qle_bool p thr).
  { intros q Hq; apply Bool.eq_iff_eq_true; rewrite !Qle_bool_iff, Hq; reflexivity. }
  unfold aggregate; destruct c.
  - unfold bonferroni_drift, min_pval; simpl fold_left.
    rewrite Ethr; [reflexivity|]; unfold Q_of_nat; change (inject_Z 1) with 1%Q; field.
  - assert (Hs : QSort.sort [p] = [p]).
    { symmetry; apply Permutation_length_1_inv, QSort.Permuted_sort. }
    unfold fdr, fdr_k; rewrite Hs; simpl length; cbn [largest_k].
    unfold bh_below; cbn [nth pred length].
    rewrite Ethr; [|unfold bh_line, Q_of_nat; change (inject_Z 1) with 1%Q; field].
    destruct (Qle_bool p thr); reflexivity.
Qed.

(** *** Kolmogorov-Smirnov statistic *)

Lemma fold_max_ge (g : Q -> Q) l a :
  (a <= fold_left (fun acc t => Qmax acc (g t)) l a)%Q /\
  forall t, In t l -> (g t <= fold_left (fun acc t => Qmax acc (g t)) l a)%Q.
Proof.
  revert a; induction l as [|t l IH]; intros a; simpl.
  - split; [apply Qle_refl|intros _ []].
  - destruct (IH (Qmax a (g t))) as [H1 H2]; split.
    + eapply Qle_trans; [apply Q.le_max_l|exact H1].
    + intros t' [<-|Ht']; [|exact (H2 t' Ht')].
      eapply Qle_trans; [apply Q.le_max_r|exact H1].
Qed.

Lemma fold_max_lub (g : Q -> Q) l a b :
  (a <= b)%Q -> (forall t, In t l -> g t <= b)%Q ->
  (fold_left (fun acc t => Qmax acc (g t)) l a <= b)%Q.
Proof.
  revert a; induction l as [|t l IH]; intros a Ha Hl; simpl; [exact Ha|].
  apply IH; [apply Q.max_lub; [exact Ha|apply Hl; left; reflexivity]|].
  intros t' Ht'; apply Hl; right; exact Ht'.
Qed.

(** Two maxima over the same points of pointwise equal values agree. *)
Lemma fold_max_same (g1 g2 : Q -> Q) l1 l2 a :
  (forall t, In t l1 -> In t l2) -> (forall t, In t l2 -> In t l1) ->
  (forall t, g1 t == g2 t)%Q ->
  (fold_left (fun acc t => Qmax acc (g1 t)) l1 a ==
   fold_left (fun acc t => Qmax acc (g2 t)) l2 a)%Q.
Proof.
  intros H12 H21 Hg; apply Qle_antisym.
  - destruct (fold_max_ge g2 l2 a) as [Ha Hl].
    apply fold_max_lub; [exact Ha|].
    intros t Ht; rewrite Hg; apply Hl, H12, Ht.
  - destruct (fold_max_ge g1 l1 a) as [Ha Hl].
    apply fold_max_lub; [exact Ha|].
    intros t Ht; rewrite <- Hg; apply Hl, H21, Ht.
Qed.

Lemma count_le_length xs t : count_le xs t <= length xs.
Proof.
  unfold count_le; pose proof (filter_split_length (fun x => Qle_bool x t) xs) as H.
  cbv beta in H; lia.
Qed.

Lemma ecdf_range xs t : (0 <= ecdf xs t <= 1)%Q.
Proof. unfold ecdf; apply ratio_range, count_le_length. Qed.

Lemma ks_gap_le_1 alt a b :
  (0 <= a <= 1)%Q -> (0 <= b <= 1)%Q -> (ks_gap alt a b <= 1)%Q.
Proof.
  intros Ha Hb; destruct alt; unfold ks_gap; [rewrite Qabs_Qle_condition; split|..]; lra.
Qed.

Lemma ks_statistic_range alt xs ys : (0 <= ks_statistic alt xs ys <= 1)%Q.
Proof.
  unfold ks_statistic; split.
  - apply fold_max_ge.
  - apply fold_max_lub; [discriminate|].
    intros t _; apply ks_gap_le_1; apply ecdf_range.
Qed.

(** X9: every K-S distance lies in [0, 1], in particular every entry of
    the distances [predict] reports for the features. *)
Theorem ks_distance_range : forall d x,
  (forall alt xs ys, 0 <= ks_statistic alt xs ys <= 1)%Q /\
  Forall (fun s => 0 <= s <= 1)%Q (snd (score d x)).
Proof.
  intros d x; split; [apply ks_statistic_range|].
  unfold score; simpl; rewrite map_map; apply Forall_forall.
  intros s Hs; apply in_map_iff in Hs as [f [<- _]]; apply ks_statistic_range.
Qed.

(** X10: the two-sided K-S distance does not depend on which sample is
    the reference; a one-sided distance is the opposite one-sided
    distance with the samples swapped. *)
Theorem ks_statistic_swap : forall xs ys,
  (ks_statistic TwoSided xs ys == ks_statistic TwoSided ys xs)%Q /\
  (ks_statistic Greater xs ys == ks_statistic Less ys xs)%Q /\
  (ks_statistic Less xs ys == ks_statistic Greater ys xs)%Q.
Proof.
  intros xs ys.
  assert (Hin : forall t, In t (xs ++ ys) -> In t (ys ++ xs)).
  { intros t H; apply in_app_or in H; apply in_or_app; tauto. }
  assert (Hin' : forall t, In t (ys ++ xs) -> In t (xs ++ ys)).
  { intros t H; apply in_app_or in H; apply in_or_app; tauto. }
  unfold ks_statistic; split; [|split]; apply fold_max_same; try assumption;
    intros t; unfold ks_gap; [rewrite Qabs_Qminus|..]; reflexivity.
Qed.

(** *** Testing the reference against itself *)

Lemma row_next_all_false ok j up left :
  (forall j, ok j = false) -> row_next ok j up left = repeat 0%Z (length up).
Proof.
  intros H; revert j left; induction up as [|u us IH]; intros j left; simpl; [reflexivity|].
  rewrite H, IH; reflexivity.
Qed.

Lemma lattice_rows_zero ok i k m :
  (forall i j, ok i j = false) -> lattice_rows ok i k (repeat 0%Z m) = repeat 0%Z m.
Proof.
  intros H; revert i; induction k as [|k IH]; intros i; simpl; [reflexivity|].
  rewrite row_next_all_false by (intros; apply H); rewrite repeat_length; apply IH.
Qed.

Lemma last_repeat {A} (a : A) m : last (repeat a m) a = a.
Proof.
  induction m as [|m IH]; [reflexivity|]; simpl.
  destruct m; [reflexivity|exact IH].
Qed.

Lemma count_paths_all_false ok nx ny :
  (forall i j, ok i j = false) -> count_paths ok nx ny = 0%Z.
Proof.
  intros H; unfold count_paths; cbn [lattice_rows].
  rewrite row_next_all_false by (intros; apply H).
  rewrite lattice_rows_zero by exact H; apply last_repeat.
Qed.

Lemma ks_statistic_self_le0 xs : (ks_statistic TwoSided xs xs <= 0)%Q.
Proof.
  unfold ks_statistic; apply fold_max_lub; [apply Qle_refl|].
  intros t _; unfold ks_gap; rewrite Qabs_Qle_condition; split; lra.
Qed.

Lemma ks_pvalue_self xs : (ks_pvalue TwoSided xs xs (ks_statistic TwoSided xs xs) == 1)%Q.
Proof.
  unfold ks_pvalue; cbv zeta.
  rewrite (count_paths_all_false
             (lattice_ok TwoSided (length xs) (length xs) (ks_statistic TwoSided xs xs))).
  - unfold Qdiv; change (inject_Z 0) with 0%Q; rewrite Qmult_0_l; ring.
  - intros i j; unfold lattice_ok; apply negb_false_iff, Qle_bool_iff.
    eapply Qle_trans; [apply ks_statistic_self_le0|apply Qabs_nonneg].
Qed.

Lemma scaled_threshold_lt_1 q thr :
  (0 <= q <= 1)%Q -> (thr < 1)%Q -> ~ (1 <= q * thr)%Q.
Proof.
  intros [Hq0 Hq1] Ht H.
  destruct (Qlt_le_dec thr 0) as [Hneg|Hpos].
  - assert (E : (q * thr <= q * 0)%Q)
      by (apply Qmult_le_mono_nonneg_l; [exact Hq0|apply Qlt_le_weak; exact Hneg]).
    rewrite Qmult_0_r in E; lra.
  - assert (E : (q * thr <= 1 * thr)%Q) by (apply Qmult_le_compat_r; assumption).
    rewrite Qmult_1_l in E; lra.
Qed.

(** X11: testing the reference against itself never signals drift.
    Without preprocessing, with the two-sided test and [p_val < 1], a
    successful [predict] on a batch equal to the stored reference gives
    p-value 1 for every feature and an [is_drift] of 0, per feature or
    for the batch under either correction. *)
Theorem identical_batch_no_drift : forall d x dt rp r d',
  preprocess_fn d = None -> alternative d = TwoSided -> x = X_ref d ->
  (p_val d < 1)%Q ->
  predict d x dt rp = (inr r, d') ->
  Forall (fun p => p == 1)%Q (fst (score d x)) /\
  match is_drift (data r) with
  | Scalar b => b = 0
  | PerFeature bs => Forall (fun b => b = 0) bs
  end.
Proof.
  intros d x dt rp r d' Hpf Halt Hx Hp Hpred.
  assert (Hps : Forall (fun p => p == 1)%Q (fst (score d x))).
  { unfold score, reference_features, preprocess; rewrite Hpf, Halt, <- Hx.
    destruct (preprocess_X_ref d); simpl; rewrite map_map; apply Forall_forall;
      intros p Hin; apply in_map_iff in Hin as [f [<- _]];
      unfold ks_2samp; cbn [fst]; apply ks_pvalue_self. }
  split; [exact Hps|].
  destruct (predict_success _ _ _ _ _ _ Hpred) as (_ & c & _ & _ & -> & _).
  cbn [is_drift data].
  pose proof (score_length d x) as Hn.
  set (ps := fst (score d x)) in *.
  assert (Hone : forall p, In p ps -> (p == 1)%Q) by (apply Forall_forall; exact Hps).
  unfold aggregate; destruct dt.
  - apply Forall_forall; intros b Hb; apply in_map_iff in Hb as [p [<- Hp']].
    destruct (Qle_bool p (p_val d)) eqn:E; [|reflexivity].
    exfalso; apply Qle_bool_iff in E; rewrite (Hone p Hp') in E; lra.
  - destruct c.
    + destruct (bonferroni_drift (p_val d) (n_features d) ps) eqn:E; [|reflexivity].
      exfalso; apply bonferroni_drift_iff in E as (m & Hm & _ & Hle).
      rewrite (Hone m Hm) in Hle.
      assert (Hq : (0 <= Q_of_nat 1 / Q_of_nat (n_features d) <= 1)%Q).
      { apply ratio_range; rewrite <- Hn; destruct ps; [destruct Hm|simpl; lia]. }
      apply (scaled_threshold_lt_1 _ _ Hq Hp); eapply Qle_trans; [exact Hle|].
      apply Qle_lteq; right; unfold Qdiv, Q_of_nat at 2; change (inject_Z 1) with 1%Q; ring.
    + destruct (fst (fdr (p_val d) ps)) eqn:E; [|reflexivity].
      exfalso; apply fdr_drift_iff in E as (k & Hk & Hle & _).
      assert (Hin : In (nth (k - 1) (QSort.sort ps) 0%Q) ps).
      { apply (Permutation_in _ (Permutation_sym (QSort.Permuted_sort ps))).
        apply nth_In; rewrite sort_length; lia. }
      rewrite (Hone _ Hin) in Hle.
      exact (scaled_threshold_lt_1 _ _ (ratio_range k (length ps) ltac:(lia)) Hp Hle).
Qed.

Lemma identical_batch_no_drift_witness :
  let d := example_detector "fdr" 1 small_ref NoUpdate in
  preprocess_fn d = None /\ alternative d = TwoSided /\ small_ref = X_ref d /\
  (p_val d < 1)%Q /\
  match is_drift (data (prediction_of (predict d small_ref Batch true))) with
  | Scalar b => b = 0
  | PerFeature bs => Forall (fun b => b = 0) bs
  end.
Proof.
  intros d.
  assert (H1 : preprocess_fn d = None) by reflexivity.
  assert (H2 : alternative d = TwoSided) by reflexivity.
  assert (H3 : small_ref = X_ref d) by reflexivity.
  assert (H4 : (p_val d < 1)%Q) by (vm_compute; reflexivity).
  split; [exact H1|split; [exact H2|split; [exact H3|split; [exact H4|]]]].
  exact (proj2 (identical_batch_no_drift d small_ref Batch true _ _ H1 H2 H3 H4
    (predict_pair d small_ref Batch true ltac:(vm_compute; reflexivity)))).
Defined.

(** *** Order of the features *)

Lemma filter_perm_length {A} (f : A -> bool) l l' :
  Permutation l l' -> length (filter f l) = length (filter f l').
Proof.
  induction 1 as [|a l l' _ IH|a b l|l l' l'' _ IH1 _ IH2]; simpl.
  - reflexivity.
  - destruct (f a); simpl; lia.
  - destruct (f a), (f b); simpl; lia.
  - lia.
Qed.

Lemma count_true_repeat j m :
  length (filter (fun b : bool => b) (repeat true j ++ repeat false m)) = j.
Proof.
  rewrite filter_app, length_app.
  replace (length (filter (fun b : bool => b) (repeat false m))) with 0
    by (induction m as [|m IH]; simpl; [reflexivity|exact IH]).
  induction j as [|j IH]; simpl; lia.
Qed.

(** In an ascending list, the [k]-th value is at most [c] exactly when at
    least [k] values are at most [c]. *)
Lemma sorted_nth_count s c k :
  StronglySorted (fun x y => is_true (QLe.leb x y)) s -> 1 <= k <= length s ->
  ((nth (k - 1) s 0%Q <= c)%Q <-> k <= count_le s c).
Proof.
  intros Hs Hk.
  destruct (sorted_threshold_prefix c s Hs) as [j Hj].
  assert (Hlen : j <= length s).
  { pose proof (f_equal (@length bool) Hj) as L.
    rewrite length_map, length_app, !repeat_length in L; lia. }
  assert (Hc : count_le s c = j).
  { unfold count_le; rewrite <- (count_true_repeat j (length s - j)), <- Hj.
    rewrite filter_map_length; reflexivity. }
  assert (Hn : Qle_bool (nth (k - 1) s 0%Q) c = (k - 1 <? j)).
  { rewrite <- (nth_map_lt (fun p => Qle_bool p c) s (k - 1) 0%Q false) by lia.
    rewrite Hj; apply nth_repeat_app. }
  rewrite Hc, <- Qle_bool_iff, Hn, Nat.ltb_lt; lia.
Qed.

Lemma fdr_count_iff thr ps :
  fst (fdr thr ps) = true <->
  exists k, 1 <= k <= length ps /\
    k <= count_le ps (Q_of_nat k / Q_of_nat (length ps) * thr).
Proof.
  assert (Hc : forall c, count_le (QSort.sort ps) c = count_le ps c).
  { intros c; unfold count_le; symmetry; apply filter_perm_length, QSort.Permuted_sort. }
  split.
  - intros H; apply fdr_drift_iff in H as (k & Hk & Hle & _).
    exists k; split; [exact Hk|rewrite <- Hc].
    apply (sorted_nth_count _ _ k (sort_sorted ps)); [rewrite sort_length; exact Hk|exact Hle].
  - intros (k & Hk & Hle); apply (fdr_drift_of_k thr ps k Hk).
    rewrite <- Hc in Hle.
    apply (sorted_nth_count _ _ k (sort_sorted ps)); [rewrite sort_length; exact Hk|exact Hle].
Qed.

(** X12: the FDR rule flags the batch exactly when, for some [k] in
    [1..n], at least [k] of the [n] p-values are at most [(k/n) * p_val];
    so the batch verdict, under either correction, does not depend on the
    order of the features. *)
Theorem batch_verdict_order_free : forall c thr nf ps ps',
  (fst (fdr thr ps) = true <->
   exists k, 1 <= k <= length ps /\
     k <= count_le ps (Q_of_nat k / Q_of_nat (length ps) * thr)) /\
  (Permutation ps ps' -> aggregate c thr nf Batch ps = aggregate c thr nf Batch ps').
Proof.
  intros c thr nf ps ps'; split; [apply fdr_count_iff|intros Hp].
  unfold aggregate; f_equal; f_equal; destruct c.
  - apply Bool.eq_iff_eq_true; rewrite !bonferroni_drift_iff.
    split; intros (m & Hm & Hmin & Hle); exists m; split.
    + exact (Permutation_in _ Hp Hm).
    + split; [intros p Hin; apply Hmin, (Permutation_in _ (Permutation_sym Hp) Hin)|exact Hle].
    + exact (Permutation_in _ (Permutation_sym Hp) Hm).
    + split; [intros p Hin; apply Hmin, (Permutation_in _ Hp Hin)|exact Hle].
  - apply Bool.eq_iff_eq_true; rewrite !fdr_count_iff.
    assert (Hl : length ps = length ps') by (apply Permutation_length; exact Hp).
    assert (Hc : forall q, count_le ps q = count_le ps' q)
      by (intros q; apply filter_perm_length; exact Hp).
    rewrite Hl; split; intros (k & Hk & Hle); exists k; split; try exact Hk;
      [rewrite <- Hc|rewrite Hc]; exact Hle.
Qed.

Lemma batch_verdict_order_free_witness :
  Permutation [1 # 100; 1; 2 # 100]%Q [1; 2 # 100; 1 # 100]%Q /\
  aggregate FDR (5 # 100) 3 Batch [1 # 100; 1; 2 # 100]%Q =
  aggregate FDR (5 # 100) 3 Batch [1; 2 # 100; 1 # 100]%Q.
Proof.
  assert (Hp : Permutation [1 # 100; 1; 2 # 100]%Q [1; 2 # 100; 1 # 100]%Q).
  { apply (Permutation_trans (l' := [1; 1 # 100; 2 # 100]%Q)); [apply perm_swap|].
    apply perm_skip, perm_swap. }
  split; [exact Hp|].
  exact (proj2 (batch_verdict_order_free FDR (5 # 100) 3 _ _) Hp).
Defined.

(** *** Preprocessing the reference at construction *)

Lemma predict_fst_congr d1 d2 x dt rp :
  preprocess_fn d1 = preprocess_fn d2 -> n_features d1 = n_features d2 ->
  correction d1 = correction d2 -> p_val d1 = p_val d2 ->
  alternative d1 = alternative d2 -> data_type d1 = data_type d2 ->
  reference_features d1 = reference_features d2 ->
  (X_ref d1 = [] <-> X_ref d2 = []) ->
  fst (predict d1 x dt rp) = fst (predict d2 x dt rp).
Proof.
  intros Hpf Hnf Hc Hpv Halt Hdt Hrf Hem.
  assert (Hpre : forall y, preprocess d1 y = preprocess d2 y)
    by (intros y; unfold preprocess; rewrite Hpf; reflexivity).
  assert (Hdim : dim_mismatch d1 x = dim_mismatch d2 x)
    by (unfold dim_mismatch; rewrite Hpre, Hnf; reflexivity).
  assert (Hemp : empty_sample d1 x = empty_sample d2 x).
  { revert Hem; unfold empty_sample; destruct (X_ref d1), (X_ref d2); intros Hem;
      try reflexivity.
    - destruct Hem as [H _]; discriminate (H eq_refl).
    - destruct Hem as [_ H]; discriminate (H eq_refl). }
  assert (Hsc : score d1 x = score d2 x)
    by (unfold score; rewrite Hrf, Hpre, Halt, Hnf; reflexivity).
  assert (Hmeta : meta_of d1 = meta_of d2) by (unfold meta_of; rewrite Hdt; reflexivity).
  unfold predict; rewrite Hdim, Hc.
  destruct (dim_mismatch d2 x); [reflexivity|].
  destruct (parse_correction (correction d2)); [|reflexivity].
  rewrite Hemp; destruct (empty_sample d2 x); [reflexivity|].
  rewrite Hsc, Hmeta, Hpv, Hnf; destruct (score d2 x); reflexivity.
Qed.

(** X13: [preprocess_X_ref] only decides when the reference is
    preprocessed, not what [predict] answers: two detectors built with the
    same arguments, one with [preprocess_X_ref=True] and one with [False],
    give the same first prediction (or the same error) on every batch,
    provided [preprocess_fn] maps the reference to an empty set only when
    it is empty. *)
Theorem preprocess_X_ref_same_prediction :
  forall pv xr upd pf corr alt nf ni dty sd rg dT dF x dt rp,
  init_KSDrift pv xr (Some true) upd pf corr alt nf ni dty sd rg = Some dT ->
  init_KSDrift pv xr (Some false) upd pf corr alt nf ni dty sd rg = Some dF ->
  (forall f, pf = Some f -> (f xr = [] <-> xr = [])) ->
  fst (predict dT x dt rp) = fst (predict dF x dt rp).
Proof.
  intros pv xr upd pf corr alt nf ni dty sd rg dT dF x dt rp HT HF Hf.
  revert HT HF; unfold init_KSDrift; cbv zeta.
  destruct (match nf with Some k => Some k | None => infer_n_features pf xr ni end)
    as [k|]; [|discriminate].
  intros HT HF; injection HT as <-; injection HF as <-.
  apply predict_fst_congr; try reflexivity.
  simpl; destruct pf as [f|]; [apply Hf; reflexivity|reflexivity].
Qed.

Lemma preprocess_X_ref_same_prediction_witness :
  let g := map (map (Qmult 2)) in
  let dT := mkKSDrift (5 # 100) (g small_ref) true NoUpdate (Some g) "fdr" TwoSided 1
              3 7 lcg None in
  let dF := mkKSDrift (5 # 100) small_ref false NoUpdate (Some g) "fdr" TwoSided 1
              3 7 lcg None in
  init_KSDrift (5 # 100) small_ref (Some true) NoUpdate (Some g) "fdr" None None 2
    None 7 lcg = Some dT /\
  init_KSDrift (5 # 100) small_ref (Some false) NoUpdate (Some g) "fdr" None None 2
    None 7 lcg = Some dF /\
  fst (predict dT small_test Batch true) = fst (predict dF small_test Batch true).
Proof.
  intros g dT dF.
  assert (HT : init_KSDrift (5 # 100) small_ref (Some true) NoUpdate (Some g) "fdr" None
                 None 2 None 7 lcg = Some dT) by reflexivity.
  assert (HF : init_KSDrift (5 # 100) small_ref (Some false) NoUpdate (Some g) "fdr" None
                 None 2 None 7 lcg = Some dF) by reflexivity.
  assert (Hf : forall f, Some g = Some f -> (f small_ref = [] <-> small_ref = [])).
  { intros f H; injection H as <-; split; discriminate. }
  split; [exact HT|split; [exact HF|]].
  exact (preprocess_X_ref_same_prediction _ _ _ _ _ _ _ _ _ _ _ _ _ small_test Batch true
           HT HF Hf).
Defined.
